(** * ReactGuide: targeting, placement and retry logic

    A shallow embedding of the tour component's logic: target lookup and the
    combined bounding rectangle, the tooltip placement engine, and the
    retry / navigation handlers of the [ReactGuide] component.

    Conventions of the embedding.
    - A JavaScript number is an exact rational ([Q]); equality of numbers is
      [Qeq].  [NaN] and the infinities have no counterpart: the one place the
      source uses [-Infinity] (the initial best score) is an [option].
    - An optional property is an [option]; JavaScript truthiness of a string
      property is [truthy] (present and not empty).
    - The browser is a parameter: a [Document] offers the two lookups the
      source calls, a [Window] the four numbers it reads.  Where it matters
      that [querySelector] can throw, the lookups are those of
      [Throwing.Document].
    - Callbacks of the host are observed through the [Effect]s a handler
      appends to the trace of the component state. *)

From Stdlib Require Import QArith Qminmax Lqa.
From Stdlib Require Import List String Bool Arith ZArith Lia.
From Stdlib Require Import Permutation Sorted.
Import ListNotations.

Local Open Scope Q_scope.

(** ** Browser interface *)

Module Rect.
(** The six numbers copied out of [element.getBoundingClientRect()]. *)
Record t : Type := mk
  { top : Q; left : Q; right : Q; bottom : Q; width : Q; height : Q }.
End Rect.

Record Element : Type := mkElement
  { getBoundingClientRect : Rect.t }.

Record Document : Type := mkDocument
  { getElementById : string -> option Element;
    querySelector : string -> option Element }.

Record Window : Type := mkWindow
  { scrollX : Q; scrollY : Q; innerWidth : Q; innerHeight : Q }.

(** ** Data model *)

Module Target.
Record t : Type := mk
  { id : option string; className : option string }.
End Target.

(** The value of a string property when it is truthy. *)
Definition truthy (o : option string) : option string :=
  match o with
  | Some s => if String.eqb s EmptyString then None else Some s
  | None => None
  end.

Definition is_truthy (o : option string) : bool :=
  match truthy o with Some _ => true | None => false end.

Module Step.
Record t : Type := mk
  { step : Z;
    id : option string;
    className : option string;
    targets : option (list (option Target.t));
    path : option string;
    nextPath : option string;
    onNext : bool;
    position : option string }.
End Step.

Module Region.
(** The object returned by [getCombinedRect]. *)
Record t : Type := mk
  { top : Q; left : Q; width : Q; height : Q;
    viewportTop : Q; viewportLeft : Q;
    viewportRight : Q; viewportBottom : Q;
    individualRects : list Rect.t }.
End Region.

(** ** Target resolver *)

Definition getTargetElement (doc : Document) (target : option Target.t)
  : option Element :=
  match target with
  | None => None
  | Some t =>
      match truthy (Target.id t) with
      | Some i => getElementById doc i
      | None =>
          match truthy (Target.className t) with
          | Some c => querySelector doc ("." ++ c)%string
          | None => None
          end
      end
  end.

Definition getStepTargets (s : Step.t) : list (option Target.t) :=
  match Step.targets s with
  | Some ts => ts
  | None =>
      if is_truthy (Step.id s) || is_truthy (Step.className s)
      then [Some (Target.mk (Step.id s) (Step.className s))]
      else []
  end.

(** The loop of [getCombinedRect]: one rectangle per target that resolves,
    in the order of the targets. *)
Fixpoint collectRects (doc : Document) (targets : list (option Target.t))
  : list Rect.t :=
  match targets with
  | [] => []
  | target :: rest =>
      match getTargetElement doc target with
      | Some element =>
          let rect := getBoundingClientRect element in
          Rect.mk (Rect.top rect) (Rect.left rect) (Rect.right rect)
                  (Rect.bottom rect) (Rect.width rect) (Rect.height rect)
          :: collectRects doc rest
      | None => collectRects doc rest
      end
  end.

(** [Math.min(x, ...xs)] and [Math.max(x, ...xs)] on at least one argument. *)
Definition Math_min (x : Q) (xs : list Q) : Q := fold_left Qmin xs x.
Definition Math_max (x : Q) (xs : list Q) : Q := fold_left Qmax xs x.

Definition getCombinedRect (doc : Document) (win : Window)
  (targets : list (option Target.t)) : option Region.t :=
  match collectRects doc targets with
  | [] => None
  | r :: rs =>
      let rects := r :: rs in
      let minLeft := Math_min (Rect.left r) (map Rect.left rs) in
      let minTop := Math_min (Rect.top r) (map Rect.top rs) in
      let maxRight := Math_max (Rect.right r) (map Rect.right rs) in
      let maxBottom := Math_max (Rect.bottom r) (map Rect.bottom rs) in
      Some (Region.mk (minTop + scrollY win) (minLeft + scrollX win)
                      (maxRight - minLeft) (maxBottom - minTop)
                      minTop minLeft maxRight maxBottom rects)
  end.

(** ** Placement engine *)

Module Candidate.
(** One entry of the [positions] table of [calculatePosition]. *)
Record t : Type := mk
  { score : Q; fits : bool; top : Q; left : Q }.
End Candidate.

(** An object literal with string keys, in insertion order (the order of
    [Object.entries]). *)
Definition Positions : Type := list (string * Candidate.t).

(** [positions[key]]. *)
Fixpoint lookup (key : string) (positions : Positions) : option Candidate.t :=
  match positions with
  | [] => None
  | (k, data) :: rest => if String.eqb key k then Some data else lookup key rest
  end.

(** [x >= y] and [x > y] on numbers. *)
Definition Qge_bool (x y : Q) : bool := Qle_bool y x.
Definition Qgt_bool (x y : Q) : bool := negb (Qle_bool x y).

Definition tooltipMargin : Q := 20.
Definition tooltipWidth : Q := 320.
Definition tooltipHeight : Q := 250.
Definition viewportPadding : Q := 20.
Definition highlightPadding : Q := 10.

Definition priorityOrder : list string :=
  ["top"; "bottom"; "top-left"; "top-right";
   "bottom-left"; "bottom-right"; "right"; "left"]%string.

(** First loop of [findBestPosition]. *)
Fixpoint firstFit (order : list string) (positions : Positions)
  : option string :=
  match order with
  | [] => None
  | pos :: rest =>
      match lookup pos positions with
      | Some data =>
          if Candidate.fits data then Some pos else firstFit rest positions
      | None => firstFit rest positions
      end
  end.

Definition adjustedScore (data : Candidate.t) : Q :=
  Candidate.score data + (if Candidate.fits data then 1000 else 0).

(** [adjustedScore > bestScore], where [None] is [-Infinity]. *)
Definition beats (adjusted : Q) (bestScore : option Q) : bool :=
  match bestScore with
  | None => true
  | Some b => Qgt_bool adjusted b
  end.

(** Second loop of [findBestPosition], from a given [(bestPos, bestScore)]. *)
Fixpoint scanBest (entries : Positions) (bestPos : string)
  (bestScore : option Q) : string :=
  match entries with
  | [] => bestPos
  | (pos, data) :: rest =>
      if beats (adjustedScore data) bestScore
      then scanBest rest pos (Some (adjustedScore data))
      else scanBest rest bestPos bestScore
  end.

Definition findBestPosition (positions : Positions) : string :=
  match firstFit priorityOrder positions with
  | Some pos => pos
  | None => scanBest positions "top"%string None
  end.

Module Arrow.
Record t : Type := mk { x : Q; y : Q; rotation : Q }.
End Arrow.

(** The tooltip arguments of the source function are not read by it. *)
Definition calculateArrowPosition (placement : string) (targetRect : Region.t)
  : Arrow.t :=
  let targetCenterX :=
    Region.viewportLeft targetRect + Region.width targetRect / 2 in
  let targetCenterY :=
    Region.viewportTop targetRect + Region.height targetRect / 2 in
  let targetTopEdge := Region.viewportTop targetRect - highlightPadding in
  let targetBottomEdge :=
    Region.viewportTop targetRect + Region.height targetRect
    + highlightPadding in
  let targetLeftEdge := Region.viewportLeft targetRect - highlightPadding in
  let targetRightEdge :=
    Region.viewportLeft targetRect + Region.width targetRect
    + highlightPadding in
  let gap : Q := 8 in
  let case (p : string) := String.eqb placement p in
  if case "top"%string || case "top-left"%string || case "top-right"%string
  then Arrow.mk targetCenterX (targetTopEdge - gap) 180
  else if case "bottom"%string || case "bottom-left"%string
          || case "bottom-right"%string
  then Arrow.mk targetCenterX (targetBottomEdge + gap) 0
  else if case "left"%string
  then Arrow.mk (targetLeftEdge - gap) targetCenterY (-90)
  else if case "right"%string
  then Arrow.mk (targetRightEdge + gap) targetCenterY 90
  else Arrow.mk targetCenterX (targetBottomEdge + gap) 0.

(** The [positions] table built by [calculatePosition]. *)
Definition positions (win : Window) (targetRect : Region.t) : Positions :=
  let viewportWidth := innerWidth win in
  let viewportHeight := innerHeight win in
  let targetTop := Region.viewportTop targetRect - highlightPadding in
  let targetBottom :=
    Region.viewportTop targetRect + Region.height targetRect
    + highlightPadding in
  let targetLeft := Region.viewportLeft targetRect - highlightPadding in
  let targetRight :=
    Region.viewportLeft targetRect + Region.width targetRect
    + highlightPadding in
  let targetCenterX :=
    Region.viewportLeft targetRect + Region.width targetRect / 2 in
  let targetCenterY :=
    Region.viewportTop targetRect + Region.height targetRect / 2 in
  let spaceTop := targetTop - viewportPadding in
  let spaceBottom := viewportHeight - targetBottom - viewportPadding in
  let spaceLeft := targetLeft - viewportPadding in
  let spaceRight := viewportWidth - targetRight - viewportPadding in
  [ ("top"%string,
     Candidate.mk (spaceTop * (12 # 10))
       (Qge_bool spaceTop (tooltipHeight + tooltipMargin))
       (targetTop - tooltipMargin - tooltipHeight)
       (targetCenterX - tooltipWidth / 2));
    ("bottom"%string,
     Candidate.mk (spaceBottom * (12 # 10))
       (Qge_bool spaceBottom (tooltipHeight + tooltipMargin))
       (targetBottom + tooltipMargin)
       (targetCenterX - tooltipWidth / 2));
    ("left"%string,
     Candidate.mk spaceLeft
       (Qge_bool spaceLeft (tooltipWidth + tooltipMargin))
       (targetCenterY - tooltipHeight / 2)
       (targetLeft - tooltipMargin - tooltipWidth));
    ("right"%string,
     Candidate.mk spaceRight
       (Qge_bool spaceRight (tooltipWidth + tooltipMargin))
       (targetCenterY - tooltipHeight / 2)
       (targetRight + tooltipMargin));
    ("top-left"%string,
     Candidate.mk (spaceTop * (11 # 10))
       (Qge_bool spaceTop (tooltipHeight + tooltipMargin)
        && Qge_bool spaceLeft 0)
       (targetTop - tooltipMargin - tooltipHeight)
       (Qmax viewportPadding targetLeft));
    ("top-right"%string,
     Candidate.mk (spaceTop * (11 # 10))
       (Qge_bool spaceTop (tooltipHeight + tooltipMargin)
        && Qge_bool spaceRight 0)
       (targetTop - tooltipMargin - tooltipHeight)
       (Qmin (targetRight - tooltipWidth)
             (viewportWidth - tooltipWidth - viewportPadding)));
    ("bottom-left"%string,
     Candidate.mk (spaceBottom * (11 # 10))
       (Qge_bool spaceBottom (tooltipHeight + tooltipMargin)
        && Qge_bool spaceLeft 0)
       (targetBottom + tooltipMargin)
       (Qmax viewportPadding targetLeft));
    ("bottom-right"%string,
     Candidate.mk (spaceBottom * (11 # 10))
       (Qge_bool spaceBottom (tooltipHeight + tooltipMargin)
        && Qge_bool spaceRight 0)
       (targetBottom + tooltipMargin)
       (Qmin (targetRight - tooltipWidth)
             (viewportWidth - tooltipWidth - viewportPadding))) ].

(** "Determine placement": the branch on [preferredPosition].  A key that is
    not one of the table's own (an unknown name, or a name inherited from
    [Object.prototype], whose [fits] is undefined) ends in [findBestPosition]
    like a candidate that does not fit. *)
Definition determinePlacement (table : Positions) (preferredPosition : string)
  : string :=
  if negb (String.eqb preferredPosition "")
     && negb (String.eqb preferredPosition "auto")
  then
    match lookup preferredPosition table with
    | Some data =>
        if Candidate.fits data then preferredPosition
        else findBestPosition table
    | None => findBestPosition table
    end
  else findBestPosition table.

Module Placement.
(** The object returned by [calculatePosition]; [tooltipStyle.width] is the
    constant [tooltipWidth]. *)
Record t : Type := mk
  { placement : string;
    tooltipTop : Q; tooltipLeft : Q; tooltipStyleWidth : Q;
    arrowStyle : Arrow.t;
    targetCenterX : Q; targetCenterY : Q }.
End Placement.

(** [preferredPosition] is [None] when the argument is undefined or null:
    undefined takes the default ['auto'], null is falsy like the empty
    string. *)
Definition preferredOrAuto (preferredPosition : option string) : string :=
  match preferredPosition with Some p => p | None => "auto"%string end.

Definition calculatePosition (win : Window) (targetRect : option Region.t)
  (preferredPosition : option string) : option Placement.t :=
  match targetRect with
  | None => None
  | Some targetRect =>
      let viewportWidth := innerWidth win in
      let viewportHeight := innerHeight win in
      let table := positions win targetRect in
      let preferred := preferredOrAuto preferredPosition in
      let placement := determinePlacement table preferred in
      match lookup placement table with
      | None => None (* a TypeError in the source, never reached:
                        see [calculatePosition_returns] *)
      | Some chosen =>
          let tooltipTop :=
            Qmax viewportPadding
              (Qmin (Candidate.top chosen)
                    (viewportHeight - tooltipHeight - viewportPadding)) in
          let tooltipLeft :=
            Qmax viewportPadding
              (Qmin (Candidate.left chosen)
                    (viewportWidth - tooltipWidth - viewportPadding)) in
          Some (Placement.mk placement tooltipTop tooltipLeft tooltipWidth
                  (calculateArrowPosition placement targetRect)
                  (Region.viewportLeft targetRect
                   + Region.width targetRect / 2)
                  (Region.viewportTop targetRect
                   + Region.height targetRect / 2))
      end
  end.

(** ** The [ReactGuide] component *)

Record Props : Type := mkProps
  { steps : list Step.t;
    onComplete : bool;     (* is the optional callback supplied? *)
    onSkip : bool;
    onStepChange : bool;
    onNavigate : bool }.

(** What the host can observe of a handler. *)
Inductive Effect : Type :=
| CallOnNext (step : Z)
| CallOnComplete
| CallOnSkip
| CallOnStepChange (step : option Z) (path : option string)
| CallOnNavigate (path : string)
| ConsoleWarn (step : Z).

(** The body of a callback given to [setTimeout].  A callback keeps the
    values of the render that created it: [RetryCallback k] is
    [() => updateTargetPosition(true)] of the render whose
    [currentStepIndex] is [k]. *)
Inductive Callback : Type :=
| RetryCallback (closureIndex : nat)
| AdvanceCallback (index : nat) (step : option Z) (path : option string).

Record Timer : Type := mkTimer { delay : Z; callback : Callback }.

Record State : Type := mkState
  { currentStepIndex : nat;
    targetRect : option Region.t;
    isVisible : bool;
    retryCount : nat;              (* retryCountRef.current *)
    timers : list Timer;           (* pending, oldest first *)
    trace : list Effect }.

Definition maxRetries : nat := 15.

(** [[...steps].sort((a, b) => a.step - b.step)]: a stable sort.  A step
    is inserted in front of the steps that followed it in [steps], so it
    stays ahead of those with the same number. *)
Fixpoint insertStep (s : Step.t) (sorted : list Step.t) : list Step.t :=
  match sorted with
  | [] => [s]
  | x :: rest =>
      if (Step.step s <=? Step.step x)%Z then s :: sorted
      else x :: insertStep s rest
  end.

Definition sortedSteps (props : Props) : list Step.t :=
  fold_right insertStep [] (steps props).

Definition isLastStep (props : Props) (index : nat) : bool :=
  Nat.eqb (S index) (List.length (sortedSteps props)).

Definition emit (e : Effect) (st : State) : State :=
  mkState (currentStepIndex st) (targetRect st) (isVisible st)
          (retryCount st) (timers st) (trace st ++ [e]).

(** [callback?.(...)]. *)
Definition emitIf (supplied : bool) (e : Effect) (st : State) : State :=
  if supplied then emit e st else st.

Definition setCurrentStepIndex (index : nat) (st : State) : State :=
  mkState index (targetRect st) (isVisible st)
          (retryCount st) (timers st) (trace st).

Definition setRetryCount (n : nat) (st : State) : State :=
  mkState (currentStepIndex st) (targetRect st) (isVisible st)
          n (timers st) (trace st).

Definition setTimeout (cb : Callback) (ms : Z) (st : State) : State :=
  mkState (currentStepIndex st) (targetRect st) (isVisible st)
          (retryCount st) (timers st ++ [mkTimer ms cb]) (trace st).

(** [nextStep?.step] and [nextStep?.path]. *)
Definition stepOf (s : option Step.t) : option Z := option_map Step.step s.
Definition pathOf (s : option Step.t) : option string :=
  match s with Some x => Step.path x | None => None end.
Definition nextPathOf (s : option Step.t) : option string :=
  match s with Some x => Step.nextPath x | None => None end.

(** Handlers are indexed by [k], the [currentStepIndex] of the render that
    created them. *)
Definition skipToNextValidStep (props : Props) (k : nat) (st : State)
  : State :=
  if isLastStep props k then emitIf (onComplete props) CallOnComplete st
  else
    let nextIndex := (k + 1)%nat in
    let nextStep := nth_error (sortedSteps props) nextIndex in
    let st1 := setCurrentStepIndex nextIndex st in
    let st2 :=
      emitIf (onStepChange props)
             (CallOnStepChange (stepOf nextStep) (pathOf nextStep)) st1 in
    match truthy (pathOf nextStep) with
    | Some p => if onNavigate props then emit (CallOnNavigate p) st2 else st2
    | None => st2
    end.

Definition updateTargetPosition (props : Props) (doc : Document)
  (win : Window) (k : nat) (withRetry : bool) (st : State) : State :=
  match nth_error (sortedSteps props) k with
  | None => st
  | Some currentStep =>
      let targets := getStepTargets currentStep in
      match getCombinedRect doc win targets with
      | Some combinedRect =>
          mkState (currentStepIndex st) (Some combinedRect) true
                  0%nat (timers st) (trace st)
      | None =>
          if withRetry && (retryCount st <? maxRetries)%nat then
            setTimeout (RetryCallback k) 200
              (setRetryCount (retryCount st + 1)%nat st)
          else if (maxRetries <=? retryCount st)%nat then
            skipToNextValidStep props k
              (setRetryCount 0%nat
                 (emit (ConsoleWarn (Step.step currentStep)) st))
          else st
      end
  end.

Definition option_string_eqb (a b : option string) : bool :=
  match a, b with
  | Some x, Some y => String.eqb x y
  | None, None => true
  | _, _ => false
  end.

Definition handleNext (props : Props) (st : State) : State :=
  let k := currentStepIndex st in
  let currentStep := nth_error (sortedSteps props) k in
  let st0 :=
    match currentStep with
    | Some s => if Step.onNext s then emit (CallOnNext (Step.step s)) st
                else st
    | None => st
    end in
  if isLastStep props k then emitIf (onComplete props) CallOnComplete st0
  else
    let nextIndex := (k + 1)%nat in
    let nextStep := nth_error (sortedSteps props) nextIndex in
    let needsNavigation :=
      is_truthy (nextPathOf currentStep)
      || (is_truthy (pathOf nextStep)
          && negb (option_string_eqb (pathOf nextStep)
                                     (pathOf currentStep))) in
    let targetPath :=
      match truthy (nextPathOf currentStep) with
      | Some p => Some p
      | None => pathOf nextStep
      end in
    match truthy targetPath with
    | Some p =>
        if needsNavigation && onNavigate props then
          setTimeout
            (AdvanceCallback nextIndex (stepOf nextStep) (pathOf nextStep))
            50 (emit (CallOnNavigate p) st0)
        else
          emitIf (onStepChange props)
            (CallOnStepChange (stepOf nextStep) (pathOf nextStep))
            (setCurrentStepIndex nextIndex st0)
    | None =>
        emitIf (onStepChange props)
          (CallOnStepChange (stepOf nextStep) (pathOf nextStep))
          (setCurrentStepIndex nextIndex st0)
    end.

Definition handleBack (props : Props) (st : State) : State :=
  let k := currentStepIndex st in
  let currentStep := nth_error (sortedSteps props) k in
  if Nat.eqb k 0 then st
  else
    let prevIndex := (k - 1)%nat in
    let prevStep := nth_error (sortedSteps props) prevIndex in
    match truthy (pathOf prevStep) with
    | Some p =>
        if negb (option_string_eqb (pathOf prevStep) (pathOf currentStep))
           && onNavigate props then
          setTimeout
            (AdvanceCallback prevIndex (stepOf prevStep) (pathOf prevStep))
            50 (emit (CallOnNavigate p) st)
        else
          emitIf (onStepChange props)
            (CallOnStepChange (stepOf prevStep) (pathOf prevStep))
            (setCurrentStepIndex prevIndex st)
    | None =>
        emitIf (onStepChange props)
          (CallOnStepChange (stepOf prevStep) (pathOf prevStep))
          (setCurrentStepIndex prevIndex st)
    end.

Definition handleSkip (props : Props) (st : State) : State :=
  emitIf (onSkip props) CallOnSkip st.

(** The scroll / resize listener of the current render. *)
Definition handlePositionUpdate (props : Props) (doc : Document)
  (win : Window) (st : State) : State :=
  updateTargetPosition props doc win (currentStepIndex st) false st.

(** The effect that runs on entering a step of an open tour:
    [updateTargetPosition(true)] of the current render. *)
Definition enterStep (props : Props) (doc : Document) (win : Window)
  (st : State) : State :=
  updateTargetPosition props doc win (currentStepIndex st) true st.

Definition runCallback (props : Props) (doc : Document) (win : Window)
  (cb : Callback) (st : State) : State :=
  match cb with
  | RetryCallback k => updateTargetPosition props doc win k true st
  | AdvanceCallback index step path =>
      emitIf (onStepChange props) (CallOnStepChange step path)
             (setCurrentStepIndex index st)
  end.

(** The oldest pending timer fires. *)
Definition fireTimer (props : Props) (doc : Document) (win : Window)
  (st : State) : State :=
  match timers st with
  | [] => st
  | t :: rest =>
      runCallback props doc win (callback t)
        (mkState (currentStepIndex st) (targetRect st) (isVisible st)
                 (retryCount st) rest (trace st))
  end.

(** One timer firing per browser snapshot of [envs], in order. *)
Definition fireTimers (props : Props) (envs : list (Document * Window))
  (st : State) : State :=
  fold_left (fun s e => fireTimer props (fst e) (snd e) s) envs st.

(** The state of a freshly opened tour. *)
Definition initialState : State := mkState 0 None false 0 [] [].

(** The table literal of [calculatePosition], keys in the order written. *)
Definition tableOf (cTop cBottom cLeft cRight cTopLeft cTopRight cBottomLeft
  cBottomRight : Candidate.t) : Positions :=
  [ ("top"%string, cTop); ("bottom"%string, cBottom);
    ("left"%string, cLeft); ("right"%string, cRight);
    ("top-left"%string, cTopLeft); ("top-right"%string, cTopRight);
    ("bottom-left"%string, cBottomLeft);
    ("bottom-right"%string, cBottomRight) ].

(** [positions[key] && positions[key].fits]. *)
Definition fitsIn (table : Positions) (key : string) : bool :=
  match lookup key table with
  | Some data => Candidate.fits data
  | None => false
  end.

(** The two effects that depend on [isOpen].  Closing resets the three
    pieces of React state; the counter and the pending timers are refs and
    stay. *)
Definition closeTour (st : State) : State :=
  mkState 0 None false (retryCount st) (timers st) (trace st).

(** The navigation of a tour that opens on a first step with a path. *)
Definition openTour (props : Props) (st : State) : State :=
  match nth_error (sortedSteps props) (currentStepIndex st) with
  | None => st
  | Some currentStep =>
      if Nat.eqb (currentStepIndex st) 0 then
        match truthy (Step.path currentStep) with
        | Some p =>
            if onNavigate props then emit (CallOnNavigate p) st else st
        | None => st
        end
      else st
  end.

(** Any one of the pending timers fires, [which] counting from the oldest.
    The browser fires timers by due time, so a 50 ms callback may overtake
    a 200 ms one scheduled before it; the choice is left to the caller. *)
Definition fireTimerAt (props : Props) (doc : Document) (win : Window)
  (which : nat) (st : State) : State :=
  match nth_error (timers st) which with
  | None => st
  | Some t =>
      runCallback props doc win (callback t)
        (mkState (currentStepIndex st) (targetRect st) (isVisible st)
                 (retryCount st)
                 (firstn which (timers st) ++ skipn (S which) (timers st))
                 (trace st))
  end.

(** What can happen to an open tour: a click on one of the three buttons,
    a scroll or resize, the effect of a step entry, one of the pending
    timers, and the two [isOpen] effects. *)
Inductive Event : Type :=
| ClickNext
| ClickBack
| ClickSkip
| ScrollOrResize
| StepEntered
| TimerFired (which : nat)
| TourClosed
| TourOpened.

Definition handleEvent (props : Props) (env : Document * Window)
  (ev : Event) (st : State) : State :=
  match ev with
  | ClickNext => handleNext props st
  | ClickBack => handleBack props st
  | ClickSkip => handleSkip props st
  | ScrollOrResize => handlePositionUpdate props (fst env) (snd env) st
  | StepEntered => enterStep props (fst env) (snd env) st
  | TimerFired which => fireTimerAt props (fst env) (snd env) which st
  | TourClosed => closeTour st
  | TourOpened => openTour props st
  end.

Definition handleEvents (props : Props)
  (evs : list (Event * (Document * Window))) (st : State) : State :=
  fold_left (fun s e => handleEvent props (snd e) (fst e) s) evs st.

(** A callback whose step index is a step of the tour. *)
Definition callbackInRange (props : Props) (t : Timer) : Prop :=
  match callback t with
  | RetryCallback k => (k < List.length (sortedSteps props))%nat
  | AdvanceCallback index _ _ => (index < List.length (sortedSteps props))%nat
  end.

Definition inRange (props : Props) (st : State) : Prop :=
  (currentStepIndex st < List.length (sortedSteps props))%nat
  /\ (retryCount st <= maxRetries)%nat
  /\ Forall (callbackInRange props) (timers st).

(** The step numbers of the warnings in a trace. *)
Fixpoint warnings (effects : list Effect) : list Z :=
  match effects with
  | [] => []
  | ConsoleWarn z :: rest => z :: warnings rest
  | _ :: rest => warnings rest
  end.

(** ** Overlay and tooltip *)

Module Box.
(** The [x], [y], [width] and [height] of a cutout of the spotlight mask;
    the highlight borders and the click blockers have the same geometry. *)
Record t : Type := mk { x : Q; y : Q; width : Q; height : Q }.
End Box.

Module Overlay.
Definition padding : Q := 10.

Definition hasMultipleTargets (targetRect : Region.t) : bool :=
  (1 <? List.length (Region.individualRects targetRect))%nat.

Definition cutouts (targetRect : option Region.t) : list Box.t :=
  match targetRect with
  | None => []
  | Some targetRect =>
      if hasMultipleTargets targetRect then
        map (fun rect =>
               Box.mk (Rect.left rect - padding) (Rect.top rect - padding)
                      (Rect.width rect + padding * 2)
                      (Rect.height rect + padding * 2))
            (Region.individualRects targetRect)
      else
        [Box.mk (Region.viewportLeft targetRect - padding)
                (Region.viewportTop targetRect - padding)
                (Region.width targetRect + padding * 2)
                (Region.height targetRect + padding * 2)]
  end.

Definition blockers (isClickDisabled : bool) (targetRect : option Region.t)
  : list Box.t :=
  if isClickDisabled then cutouts targetRect else [].
End Overlay.

(** A rectangle lies strictly inside a box. *)
Definition covers (b : Box.t) (r : Rect.t) : Prop :=
  Box.x b < Rect.left r
  /\ Box.y b < Rect.top r
  /\ Rect.right r < Box.x b + Box.width b
  /\ Rect.bottom r < Box.y b + Box.height b.

(** The right and bottom edges of a rectangle are its left plus width and
    top plus height, up to a pixel. *)
Definition wellFormed (r : Rect.t) : Prop :=
  Rect.right r <= Rect.left r + Rect.width r + 1
  /\ Rect.bottom r <= Rect.top r + Rect.height r + 1.

Module Tooltip.
(** The width of the progress bar, in percent. *)
Definition progress (currentStepIndex totalSteps : nat) : Q :=
  (inject_Z (Z.of_nat currentStepIndex) + 1)
  / inject_Z (Z.of_nat totalSteps) * 100.
End Tooltip.

(** ** Lookups that can throw

    [document.querySelector] throws a [SyntaxError] on a string that is not
    a selector, and the source builds the string from the class name as it
    is: a class name such as [1card] or [md:flex] makes the call throw.
    Here the lookup says so, and the exception passes through
    [getTargetElement] and [getCombinedRect], which catch nothing. *)

Inductive Outcome (A : Type) : Type :=
| Returns (a : A)
| Throws.
Arguments Returns {A} a.
Arguments Throws {A}.

Module Throwing.
Record Document : Type := mkDocument
  { getElementById : string -> option Element;
    querySelector : string -> Outcome (option Element) }.

Definition getTargetElement (doc : Document) (target : option Target.t)
  : Outcome (option Element) :=
  match target with
  | None => Returns None
  | Some t =>
      match truthy (Target.id t) with
      | Some i => Returns (getElementById doc i)
      | None =>
          match truthy (Target.className t) with
          | Some c => querySelector doc ("." ++ c)%string
          | None => Returns None
          end
      end
  end.

(** The loop of [getCombinedRect], which ends at the first lookup that
    throws. *)
Fixpoint collectRects (doc : Document) (targets : list (option Target.t))
  (rects : list Rect.t) : Outcome (list Rect.t) :=
  match targets with
  | [] => Returns rects
  | target :: rest =>
      match getTargetElement doc target with
      | Throws => Throws
      | Returns (Some element) =>
          let rect := getBoundingClientRect element in
          collectRects doc rest
            (rects ++ [Rect.mk (Rect.top rect) (Rect.left rect)
                               (Rect.right rect) (Rect.bottom rect)
                               (Rect.width rect) (Rect.height rect)])
      | Returns None => collectRects doc rest rects
      end
  end.

Definition getCombinedRect (doc : Document) (win : Window)
  (targets : list (option Target.t)) : Outcome (option Region.t) :=
  match collectRects doc targets [] with
  | Throws => Throws
  | Returns [] => Returns None
  | Returns (r :: rs) =>
      let rects := r :: rs in
      let minLeft := Math_min (Rect.left r) (map Rect.left rs) in
      let minTop := Math_min (Rect.top r) (map Rect.top rs) in
      let maxRight := Math_max (Rect.right r) (map Rect.right rs) in
      let maxBottom := Math_max (Rect.bottom r) (map Rect.bottom rs) in
      Returns
        (Some (Region.mk (minTop + scrollY win) (minLeft + scrollX win)
                         (maxRight - minLeft) (maxBottom - minTop)
                         minTop minLeft maxRight maxBottom rects))
  end.
End Throwing.

(** The document seen when a throwing lookup is taken for one that finds
    nothing. *)
Definition silenced (doc : Throwing.Document) : Document :=
  mkDocument (Throwing.getElementById doc)
    (fun selector =>
       match Throwing.querySelector doc selector with
       | Returns found => found
       | Throws => None
       end).

(** ** Sample data

    A page with one element of id [hero] and one element of class [card],
    a page on which no lookup succeeds, and a 1920 x 1080 window. *)

Definition heroRect : Rect.t := Rect.mk 100 100 200 140 100 40.
Definition cardRect : Rect.t := Rect.mk 300 50 450 500 400 200.

Definition demoDocument : Document :=
  mkDocument
    (fun i => if String.eqb i "hero" then Some (mkElement heroRect) else None)
    (fun sel =>
       if String.eqb sel ".card" then Some (mkElement cardRect) else None).

Definition emptyDocument : Document :=
  mkDocument (fun _ => None) (fun _ => None).

Definition demoWindow : Window := mkWindow 0 250 1920 1080.

Definition heroTarget : Target.t := Target.mk (Some "hero"%string) None.
Definition cardTarget : Target.t := Target.mk None (Some "card"%string).
Definition ghostTarget : Target.t :=
  Target.mk (Some "ghost"%string) (Some "card"%string).

Definition heroRegion : Region.t :=
  Region.mk 350 100 100 40 100 100 200 140 [heroRect].

(** A window smaller than the tooltip. *)
Definition smallWindow : Window := mkWindow 0 0 300 200.

(** A window in which no placement fits around [heroRegion]. *)
Definition crampedWindow : Window := mkWindow 0 0 500 400.

(** The candidate stored at position [n] of a table. *)
Definition entry (table : Positions) (n : nat) : Candidate.t :=
  snd (nth n table (EmptyString, Candidate.mk 0 false 0 0)).

(** A two-step tour: the first step points at an element that is on no
    page and declares a [nextPath]; the second is the last step. *)
Definition ghostStep : Step.t :=
  Step.mk 1 (Some "ghost"%string) None None None (Some "/about"%string)
          false None.
Definition heroStep : Step.t :=
  Step.mk 2 (Some "hero"%string) None None None None false None.

Definition tourProps : Props :=
  mkProps [heroStep; ghostStep] true true true true.

(** The same tour for a host that supplies no [onNavigate]. *)
Definition tourPropsNoNavigate : Props :=
  mkProps [heroStep; ghostStep] true true true false.

Definition emptyPage : Document * Window := (emptyDocument, demoWindow).

(** The state after [n] timers have fired on a step entered in [env0]. *)
Definition retryRun (props : Props) (env0 : Document * Window)
  (envs : list (Document * Window)) (st : State) (n : nat) : State :=
  fireTimers props (firstn n envs)
    (enterStep props (fst env0) (snd env0) st).

(** [getCombinedRect] finds none of the targets of step [s]. *)
Definition unresolved (s : Step.t) (env : Document * Window) : Prop :=
  getCombinedRect (fst env) (snd env) (getStepTargets s) = None.

(** A state that waits for its one retry timer, [c] retries into step [k],
    and otherwise is [st0]. *)
Definition retrying (k : nat) (st0 : State) (c : nat) (st : State) : Prop :=
  st = mkState (currentStepIndex st0) (targetRect st0) (isVisible st0) c
               [mkTimer 200 (RetryCallback k)] (trace st0).

(** The effects [onNext] adds in front of those of [handleNext]. *)
Definition onNextEffects (s : Step.t) : list Effect :=
  if Step.onNext s then [CallOnNext (Step.step s)] else [].

Definition isCallOnNavigate (e : Effect) : Prop :=
  exists p, e = CallOnNavigate p.

(** A step entry followed by 15 timer firings in one unchanging page, and
    [n] such rounds in a row. *)
Definition exhaustStep (props : Props) (env : Document * Window)
  (st : State) : State :=
  retryRun props env (repeat env 15) st 15.

Definition exhaustSteps (props : Props) (env : Document * Window) (n : nat)
  (st : State) : State :=
  Nat.iter n (exhaustStep props env) st.

(** Steps in ascending order of their number. *)
Definition stepLe (a b : Step.t) : Prop := (Step.step a <= Step.step b)%Z.

(** The steps of a list that carry the number [z], in the order of the
    list. *)
Definition stepsNumbered (z : Z) (l : list Step.t) : list Step.t :=
  filter (fun s => (Step.step s =? z)%Z) l.

(** The demo page in a browser that rejects the selector [.1card]. *)
Definition strictDocument : Throwing.Document :=
  Throwing.mkDocument
    (fun i => if String.eqb i "hero" then Some (mkElement heroRect) else None)
    (fun sel =>
       if String.eqb sel ".card" then Returns (Some (mkElement cardRect))
       else if String.eqb sel ".1card" then Throws
       else Returns None).


(** A three-step tour whose first step is on the demo page and whose other
    two never are. *)
Definition firstGhost : Step.t :=
  Step.mk 2 (Some "ghost-a"%string) None None None None false None.
Definition lastGhost : Step.t :=
  Step.mk 3 (Some "ghost-b"%string) None None None None false None.
Definition staleProps : Props :=
  mkProps [Step.mk 1 (Some "hero"%string) None None None None false None;
           firstGhost; lastGhost] true true true true.
Definition demoPage : Document * Window := (demoDocument, demoWindow).

(** The hero step is shown, Next is clicked, the first ghost is retried six
    times, Next is clicked again and the last ghost is entered. *)
Definition staleEntry : State :=
  handleEvents staleProps
    [(StepEntered, demoPage); (ClickNext, demoPage); (StepEntered, demoPage);
     (TimerFired 0, demoPage); (TimerFired 0, demoPage);
     (TimerFired 0, demoPage); (TimerFired 0, demoPage);
     (TimerFired 0, demoPage); (TimerFired 0, demoPage);
     (ClickNext, demoPage)]
    initialState.

(** * Properties *)

(** ** Target resolver *)

Section Resolver.
Variable doc : Document.

Lemma collectRects_app (xs ys : list (option Target.t)) :
  collectRects doc (xs ++ ys)
  = (collectRects doc xs ++ collectRects doc ys)%list.
Proof.
  induction xs as [|x xs IH]; simpl; [reflexivity|].
  destruct (getTargetElement doc x); simpl; now rewrite IH.
Qed.

Lemma collectRects_skip (before after : list (option Target.t))
  (t : option Target.t) :
  getTargetElement doc t = None ->
  collectRects doc (before ++ t :: after) = collectRects doc (before ++ after).
Proof.
  intros H. rewrite !collectRects_app. simpl. now rewrite H.
Qed.

Lemma collectRects_nil_iff (targets : list (option Target.t)) :
  collectRects doc targets = [] <->
  Forall (fun t => getTargetElement doc t = None) targets.
Proof.
  induction targets as [|t ts IH]; simpl.
  - split; auto.
  - destruct (getTargetElement doc t) eqn:E.
    + split; [discriminate|]. intros H. inversion H; congruence.
    + rewrite IH. split; intros H.
      * now constructor.
      * now inversion H.
Qed.

Lemma getCombinedRect_none (win : Window) (targets : list (option Target.t)) :
  getCombinedRect doc win targets = None <-> collectRects doc targets = [].
Proof.
  unfold getCombinedRect. destruct (collectRects doc targets).
  - tauto.
  - split; discriminate.
Qed.

Lemma getCombinedRect_skip (win : Window)
  (before after : list (option Target.t)) (t : option Target.t) :
  getTargetElement doc t = None ->
  getCombinedRect doc win (before ++ t :: after)
  = getCombinedRect doc win (before ++ after).
Proof.
  intros H. unfold getCombinedRect. now rewrite collectRects_skip.
Qed.
End Resolver.

(** [Math.min] and [Math.max] return one of their arguments, below
    (respectively above) all of them. *)
Lemma Qmin_cases (x y : Q) : Qmin x y = x \/ Qmin x y = y.
Proof.
  unfold Qmin, GenericMinMax.gmin. destruct (x ?= y); auto.
Qed.

Lemma Qmax_cases (x y : Q) : Qmax x y = x \/ Qmax x y = y.
Proof.
  unfold Qmax, GenericMinMax.gmax. destruct (x ?= y); auto.
Qed.

Lemma Math_min_le_init (xs : list Q) (x : Q) : Math_min x xs <= x.
Proof.
  unfold Math_min. revert x.
  induction xs as [|y ys IH]; intros x; simpl; [apply Qle_refl|].
  eapply Qle_trans; [apply IH | apply Q.le_min_l].
Qed.

Lemma Math_min_lower (xs : list Q) (x : Q) :
  Forall (fun y => Math_min x xs <= y) (x :: xs).
Proof.
  constructor; [apply Math_min_le_init|].
  unfold Math_min. revert x.
  induction xs as [|y ys IH]; intros x; simpl; constructor.
  - eapply Qle_trans; [apply (Math_min_le_init ys) | apply Q.le_min_r].
  - apply IH.
Qed.

Lemma Math_min_In (xs : list Q) (x : Q) : In (Math_min x xs) (x :: xs).
Proof.
  unfold Math_min. revert x.
  induction xs as [|y ys IH]; intros x; simpl; [now left|].
  destruct (IH (Qmin x y)) as [H|H].
  - rewrite <- H. destruct (Qmin_cases x y) as [E|E]; rewrite E; auto.
  - auto.
Qed.

Lemma Math_max_ge_init (xs : list Q) (x : Q) : x <= Math_max x xs.
Proof.
  unfold Math_max. revert x.
  induction xs as [|y ys IH]; intros x; simpl; [apply Qle_refl|].
  eapply Qle_trans; [apply Q.le_max_l | apply IH].
Qed.

Lemma Math_max_upper (xs : list Q) (x : Q) :
  Forall (fun y => y <= Math_max x xs) (x :: xs).
Proof.
  constructor; [apply Math_max_ge_init|].
  unfold Math_max. revert x.
  induction xs as [|y ys IH]; intros x; simpl; constructor.
  - eapply Qle_trans; [apply Q.le_max_r | apply (Math_max_ge_init ys)].
  - apply IH.
Qed.

Lemma Math_max_In (xs : list Q) (x : Q) : In (Math_max x xs) (x :: xs).
Proof.
  unfold Math_max. revert x.
  induction xs as [|y ys IH]; intros x; simpl; [now left|].
  destruct (IH (Qmax x y)) as [H|H].
  - rewrite <- H. destruct (Qmax_cases x y) as [E|E]; rewrite E; auto.
  - auto.
Qed.

Lemma Forall_map_proj {A : Type} (f : A -> Q) (P : Q -> Prop) (l : list A) :
  Forall P (map f l) -> Forall (fun a => P (f a)) l.
Proof.
  induction l as [|a l IH]; simpl; intros H; constructor; inversion H; auto.
Qed.

Lemma In_map_proj {A : Type} (f : A -> Q) (q : Q) (l : list A) :
  In q (map f l) -> exists a, In a l /\ q = f a.
Proof.
  intros H. apply in_map_iff in H. destruct H as [a [E I]]. eauto.
Qed.

(** Lookups that can throw: the loop with its accumulator. *)
Section ThrowingResolver.
Variable doc : Throwing.Document.


Lemma Throwing_collectRects_throws (targets : list (option Target.t))
  (rects : list Rect.t) :
  Throwing.collectRects doc targets rects = Throws <->
  Exists (fun t => Throwing.getTargetElement doc t = Throws) targets.
Proof.
  revert rects. induction targets as [|t ts IH]; intros rects; simpl.
  - split; [discriminate | intros H; inversion H].
  - destruct (Throwing.getTargetElement doc t) as [[e|]|] eqn:E.
    + rewrite IH. split; [now right|].
      intros H. inversion H; [congruence | assumption].
    + rewrite IH. split; [now right|].
      intros H. inversion H; [congruence | assumption].
    + split; [now left | reflexivity].
Qed.


(** Where no lookup throws, the result is that of the document in which a
    throwing lookup counts as one that finds nothing. *)
Lemma Throwing_getTargetElement_silenced (t : option Target.t)
  (found : option Element) :
  Throwing.getTargetElement doc t = Returns found ->
  getTargetElement (silenced doc) t = found.
Proof.
  unfold Throwing.getTargetElement, getTargetElement, silenced.
  destruct t as [d|]; [|now intros [= <-]]. simpl.
  destruct (truthy (Target.id d)); [now intros [= <-]|].
  destruct (truthy (Target.className d)); [|now intros [= <-]].
  now intros ->.
Qed.

Lemma Throwing_collectRects_silenced (targets : list (option Target.t))
  (rects : list Rect.t) :
  Forall (fun t => Throwing.getTargetElement doc t <> Throws) targets ->
  Throwing.collectRects doc targets rects
  = Returns (rects ++ collectRects (silenced doc) targets)%list.
Proof.
  intros F. revert rects.
  induction F as [|t ts Ht _ IH]; intros rects; simpl.
  - now rewrite app_nil_r.
  - destruct (Throwing.getTargetElement doc t) as [found|] eqn:E;
      [|congruence].
    rewrite (Throwing_getTargetElement_silenced t found E).
    destruct found as [e|]; [|apply IH].
    rewrite IH, <- app_assoc. reflexivity.
Qed.

Lemma Throwing_getCombinedRect_silenced (win : Window)
  (targets : list (option Target.t)) :
  Forall (fun t => Throwing.getTargetElement doc t <> Throws) targets ->
  Throwing.getCombinedRect doc win targets
  = Returns (getCombinedRect (silenced doc) win targets).
Proof.
  intros F. unfold Throwing.getCombinedRect, getCombinedRect.
  rewrite (Throwing_collectRects_silenced targets [] F). simpl.
  now destruct (collectRects (silenced doc) targets).
Qed.
End ThrowingResolver.




(** C8. The region returned by [getCombinedRect] lists the resolved
    rectangles (at least one) and contains each of them: its viewport left
    and top are below every rectangle's left and top, its viewport right and
    bottom above every rectangle's right and bottom; each of the four edges
    is the edge of one of the rectangles; and its document-relative top and
    left are the viewport top and left plus [scrollY] and [scrollX]. *)
Theorem getCombinedRect_contains_every_rect
  (doc : Document) (win : Window) (targets : list (option Target.t))
  (region : Region.t) :
  getCombinedRect doc win targets = Some region ->
  let rects := Region.individualRects region in
  rects = collectRects doc targets /\ rects <> []
  /\ Forall (fun r =>
               Region.viewportLeft region <= Rect.left r
               /\ Region.viewportTop region <= Rect.top r
               /\ Rect.right r <= Region.viewportRight region
               /\ Rect.bottom r <= Region.viewportBottom region) rects
  /\ (exists r, In r rects /\ Region.viewportLeft region = Rect.left r)
  /\ (exists r, In r rects /\ Region.viewportTop region = Rect.top r)
  /\ (exists r, In r rects /\ Region.viewportRight region = Rect.right r)
  /\ (exists r, In r rects /\ Region.viewportBottom region = Rect.bottom r)
  /\ Region.top region = Region.viewportTop region + scrollY win
  /\ Region.left region = Region.viewportLeft region + scrollX win.
Proof.
  unfold getCombinedRect.
  destruct (collectRects doc targets) as [|r rs] eqn:E; [discriminate|].
  intros H. injection H as <-. cbn [Region.individualRects Region.viewportLeft
    Region.viewportTop Region.viewportRight Region.viewportBottom Region.top
    Region.left].
  split; [reflexivity|]. split; [discriminate|].
  split.
  - pose proof (Forall_map_proj Rect.left _ (r :: rs)
                  (Math_min_lower (map Rect.left rs) (Rect.left r))) as HL.
    pose proof (Forall_map_proj Rect.top _ (r :: rs)
                  (Math_min_lower (map Rect.top rs) (Rect.top r))) as HT.
    pose proof (Forall_map_proj Rect.right _ (r :: rs)
                  (Math_max_upper (map Rect.right rs) (Rect.right r))) as HR.
    pose proof (Forall_map_proj Rect.bottom _ (r :: rs)
                  (Math_max_upper (map Rect.bottom rs) (Rect.bottom r))) as HB.
    rewrite Forall_forall in *. intros x Hx.
    repeat split; [apply HL | apply HT | apply HR | apply HB]; exact Hx.
  - repeat split.
    + apply (In_map_proj Rect.left _ (r :: rs)), Math_min_In.
    + apply (In_map_proj Rect.top _ (r :: rs)), Math_min_In.
    + apply (In_map_proj Rect.right _ (r :: rs)), Math_max_In.
    + apply (In_map_proj Rect.bottom _ (r :: rs)), Math_max_In.
Qed.

Lemma getCombinedRect_contains_every_rect_witness :
  exists region,
    getCombinedRect demoDocument demoWindow [Some heroTarget; Some cardTarget]
    = Some region
    /\ Region.viewportLeft region == 50 /\ Region.viewportTop region == 100
    /\ Region.viewportRight region == 450
    /\ Region.viewportBottom region == 500
    /\ Region.top region == 350
    /\ Forall (fun r =>
                 Region.viewportLeft region <= Rect.left r
                 /\ Region.viewportTop region <= Rect.top r
                 /\ Rect.right r <= Region.viewportRight region
                 /\ Rect.bottom r <= Region.viewportBottom region)
              (Region.individualRects region).
Proof.
  eexists. split; [reflexivity|].
  repeat (split; [reflexivity|]).
  apply (getCombinedRect_contains_every_rect demoDocument demoWindow
           [Some heroTarget; Some cardTarget] _ eq_refl).
Defined.

(** C10. A descriptor whose [id] is a non-empty string that matches no
    element resolves to null, whatever its [className] would match: the
    class selector is not tried.  Such a descriptor adds no rectangle to the
    combined region. *)
Theorem getTargetElement_id_shadows_className
  (doc : Document) (t : Target.t) (i : string) :
  Target.id t = Some i -> i <> EmptyString ->
  getElementById doc i = None ->
  getTargetElement doc (Some t) = None
  /\ forall win before after,
       getCombinedRect doc win (before ++ Some t :: after)
       = getCombinedRect doc win (before ++ after).
Proof.
  intros Hid Hne Hmiss.
  assert (H : getTargetElement doc (Some t) = None).
  { unfold getTargetElement, truthy. rewrite Hid.
    destruct (String.eqb_spec i EmptyString) as [E|_]; [contradiction|].
    exact Hmiss. }
  split; [exact H|].
  intros win before after. now apply getCombinedRect_skip.
Qed.

Lemma getTargetElement_id_shadows_className_witness :
  querySelector demoDocument ".card" = Some (mkElement cardRect)
  /\ getTargetElement demoDocument (Some cardTarget)
     = Some (mkElement cardRect)
  /\ getTargetElement demoDocument (Some ghostTarget) = None
  /\ getCombinedRect demoDocument demoWindow [Some ghostTarget] = None.
Proof.
  split; [reflexivity|]. split; [reflexivity|].
  destruct (getTargetElement_id_shadows_className demoDocument ghostTarget
              "ghost" eq_refl) as [H1 H2].
  - discriminate.
  - reflexivity.
  - split; [exact H1|]. exact (H2 demoWindow [] []).
Defined.

(** ** Placement engine *)

Lemma Qgt_bool_iff (x y : Q) : Qgt_bool x y = true <-> y < x.
Proof.
  unfold Qgt_bool. rewrite negb_true_iff.
  destruct (Qle_bool x y) eqn:E.
  - apply Qle_bool_iff in E. split; [discriminate|]. intros H.
    exfalso. apply (Qlt_irrefl y). eapply Qlt_le_trans; eauto.
  - split; [|reflexivity]. intros _. apply Qnot_le_lt. intros H.
    apply Qle_bool_iff in H. congruence.
Qed.

Lemma Qgt_bool_false_iff (x y : Q) : Qgt_bool x y = false <-> x <= y.
Proof.
  unfold Qgt_bool. rewrite negb_false_iff. apply Qle_bool_iff.
Qed.

Section Tables.
Variable table : Positions.

Lemma lookup_In (key : string) (data : Candidate.t) :
  lookup key table = Some data -> In (key, data) table.
Proof.
  induction table as [|[k d] rest IH]; simpl; [discriminate|].
  destruct (String.eqb_spec key k) as [->|_].
  - intros [= ->]. now left.
  - intros H. right. now apply IH.
Qed.

Lemma In_lookup (key : string) :
  In key (map fst table) -> lookup key table <> None.
Proof.
  induction table as [|[k d] rest IH]; simpl; [tauto|].
  destruct (String.eqb_spec key k) as [->|N]; [discriminate|].
  intros [E|H]; [congruence | now apply IH].
Qed.

Lemma firstFit_first (before after : list string) (p : string) :
  fitsIn table p = true ->
  (forall q, In q before -> fitsIn table q = false) ->
  firstFit (before ++ p :: after) table = Some p.
Proof.
  unfold fitsIn. intros Hp.
  induction before as [|q qs IH]; intros Hq; simpl.
  - destruct (lookup p table); [now rewrite Hp | discriminate].
  - pose proof (Hq q (or_introl eq_refl)) as H.
    destruct (lookup q table).
    + rewrite H. apply IH. intros; apply Hq; now right.
    + apply IH. intros; apply Hq; now right.
Qed.

Lemma firstFit_none (order : list string) :
  (forall q, In q order -> fitsIn table q = false) ->
  firstFit order table = None.
Proof.
  unfold fitsIn. induction order as [|q qs IH]; intros Hq; simpl.
  - reflexivity.
  - pose proof (Hq q (or_introl eq_refl)) as H.
    destruct (lookup q table).
    + rewrite H. apply IH. intros; apply Hq; now right.
    + apply IH. intros; apply Hq; now right.
Qed.

Lemma firstFit_some (order : list string) (p : string) :
  firstFit order table = Some p -> In p order /\ fitsIn table p = true.
Proof.
  unfold fitsIn. induction order as [|q qs IH]; simpl; [discriminate|].
  destruct (lookup q table) as [d|] eqn:E.
  - destruct (Candidate.fits d) eqn:F.
    + intros [= <-]. rewrite E. auto.
    + intros H. destruct (IH H). auto.
  - intros H. destruct (IH H). auto.
Qed.
End Tables.

(** The second loop keeps the first entry whose adjusted score is the
    greatest, unless no entry beats the score it starts from. *)
Lemma scanBest_from (entries : Positions) (b : string) (s : Q) :
  (scanBest entries b (Some s) = b
   /\ forall e, In e entries -> adjustedScore (snd e) <= s)
  \/ exists before d after,
       entries = (before ++ (scanBest entries b (Some s), d) :: after)%list
       /\ s < adjustedScore d
       /\ (forall e, In e before -> adjustedScore (snd e) < adjustedScore d)
       /\ (forall e, In e after -> adjustedScore (snd e) <= adjustedScore d).
Proof.
  revert b s. induction entries as [|[pos data] rest IH]; intros b s; simpl.
  - left. split; [reflexivity | tauto].
  - destruct (Qgt_bool (adjustedScore data) s) eqn:G.
    + apply Qgt_bool_iff in G. right.
      destruct (IH pos (adjustedScore data))
        as [[-> Hall] | (before & d & after & E & Hs & Hb & Ha)].
      * exists [], data, rest. simpl. repeat split; auto. tauto.
      * exists ((pos, data) :: before), d, after. simpl.
        rewrite E at 1. repeat split; auto.
        -- eapply Qlt_trans; eauto.
        -- intros e [<-|H]; simpl; auto.
    + apply Qgt_bool_false_iff in G.
      destruct (IH b s)
        as [[-> Hall] | (before & d & after & E & Hs & Hb & Ha)].
      * left. split; [reflexivity|]. intros e [<-|H]; simpl; auto.
      * right. exists ((pos, data) :: before), d, after. simpl.
        rewrite E at 1. repeat split; auto.
        intros e [<-|H]; simpl; auto. eapply Qle_lt_trans; eauto.
Qed.

Lemma scanBest_first_max (entries : Positions) :
  entries <> [] ->
  exists before d after,
    entries = (before ++ (scanBest entries "top" None, d) :: after)%list
    /\ (forall e, In e before -> adjustedScore (snd e) < adjustedScore d)
    /\ (forall e, In e after -> adjustedScore (snd e) <= adjustedScore d).
Proof.
  destruct entries as [|[pos data] rest]; [congruence|]. intros _. simpl.
  destruct (scanBest_from rest pos (adjustedScore data))
    as [[-> Hall] | (before & d & after & E & Hs & Hb & Ha)].
  - exists [], data, rest. simpl. repeat split; auto. tauto.
  - exists ((pos, data) :: before), d, after. simpl.
    rewrite E at 1. repeat split; auto.
    intros e [<-|H]; simpl; auto.
Qed.

Lemma determinePlacement_preferred (table : Positions) (p : string) :
  p <> EmptyString -> p <> "auto"%string -> fitsIn table p = true ->
  determinePlacement table p = p.
Proof.
  unfold determinePlacement, fitsIn. intros H1 H2 H3.
  destruct (String.eqb_spec p ""); [contradiction|].
  destruct (String.eqb_spec p "auto"); [contradiction|]. simpl.
  destruct (lookup p table); [now rewrite H3 | discriminate].
Qed.

Lemma determinePlacement_fallback (table : Positions) (p : string) :
  p = EmptyString \/ p = "auto"%string \/ fitsIn table p = false ->
  determinePlacement table p = findBestPosition table.
Proof.
  unfold determinePlacement, fitsIn. intros H.
  destruct (String.eqb_spec p ""); [reflexivity|].
  destruct (String.eqb_spec p "auto"); [reflexivity|]. simpl.
  destruct H as [H|[H|H]]; try contradiction.
  destruct (lookup p table); [now rewrite H | reflexivity].
Qed.

Lemma findBestPosition_key (table : Positions) :
  In "top"%string (map fst table) ->
  In (findBestPosition table) (map fst table).
Proof.
  intros Htop. unfold findBestPosition.
  destruct (firstFit priorityOrder table) as [p|] eqn:E.
  - apply firstFit_some in E. destruct E as [_ F]. unfold fitsIn in F.
    destruct (lookup p table) as [d|] eqn:L; [|discriminate].
    apply lookup_In in L. now apply (in_map fst) in L.
  - destruct (scanBest_first_max table) as (before & d & after & Eq & _).
    + intros ->. contradiction.
    + rewrite Eq at 2. rewrite map_app. apply in_or_app. right. now left.
Qed.

Lemma determinePlacement_key (table : Positions) (preferred : string) :
  In "top"%string (map fst table) ->
  lookup (determinePlacement table preferred) table <> None.
Proof.
  intros Htop. unfold determinePlacement.
  pose proof (In_lookup table _ (findBestPosition_key table Htop)) as HB.
  destruct (_ && _); [|exact HB].
  destruct (lookup preferred table) as [d|] eqn:L; [|exact HB].
  destruct (Candidate.fits d); [congruence | exact HB].
Qed.

Lemma positions_keys (win : Window) (region : Region.t) :
  map fst (positions win region)
  = ["top"; "bottom"; "left"; "right";
     "top-left"; "top-right"; "bottom-left"; "bottom-right"]%string.
Proof. reflexivity. Qed.

(** [calculatePosition] returns an object for every non-null region: the
    chosen placement is a key of the table, and the tooltip anchor is that
    candidate's anchor put through the final clamp. *)
Lemma calculatePosition_returns (win : Window) (region : Region.t)
  (preferredPosition : option string) :
  exists res chosen,
    calculatePosition win (Some region) preferredPosition = Some res
    /\ Placement.placement res
       = determinePlacement (positions win region)
           (preferredOrAuto preferredPosition)
    /\ lookup (Placement.placement res) (positions win region) = Some chosen
    /\ Placement.tooltipTop res
       = Qmax viewportPadding
           (Qmin (Candidate.top chosen)
                 (innerHeight win - tooltipHeight - viewportPadding))
    /\ Placement.tooltipLeft res
       = Qmax viewportPadding
           (Qmin (Candidate.left chosen)
                 (innerWidth win - tooltipWidth - viewportPadding)).
Proof.
  unfold calculatePosition.
  set (table := positions win region).
  set (placement := determinePlacement table _).
  assert (H : lookup placement table <> None).
  { apply determinePlacement_key. unfold table. rewrite positions_keys.
    now left. }
  destruct (lookup placement table) as [chosen|] eqn:L; [|congruence].
  eexists. exists chosen. split; [reflexivity|]. simpl. auto.
Qed.

(** C1. For a non-null region and a preferred side among the eight named
    placements whose candidate fits the region and window,
    [calculatePosition] returns an object whose placement is that side. *)
Theorem calculatePosition_preferred_side_that_fits
  (win : Window) (region : Region.t) (preferred : string) :
  In preferred priorityOrder ->
  fitsIn (positions win region) preferred = true ->
  exists res,
    calculatePosition win (Some region) (Some preferred) = Some res
    /\ Placement.placement res = preferred.
Proof.
  intros Hin Hfit.
  destruct (calculatePosition_returns win region (Some preferred))
    as (res & chosen & E & P & _).
  exists res. split; [exact E|]. rewrite P. simpl.
  apply determinePlacement_preferred; [| |exact Hfit];
    intros ->; simpl in Hin; intuition discriminate.
Qed.

Lemma calculatePosition_preferred_side_that_fits_witness :
  fitsIn (positions demoWindow heroRegion) "right" = true
  /\ fitsIn (positions demoWindow heroRegion) "bottom" = true
  /\ exists res,
       calculatePosition demoWindow (Some heroRegion) (Some "right"%string)
       = Some res
       /\ Placement.placement res = "right"%string.
Proof.
  split; [reflexivity|]. split; [reflexivity|].
  apply (calculatePosition_preferred_side_that_fits demoWindow heroRegion
           "right").
  - simpl. tauto.
  - reflexivity.
Defined.

(** C2. On a table of the eight placements, when the preferred side is
    absent, ['auto'] or does not fit, the placement is that of
    [findBestPosition]: the first name of the priority order whose candidate
    fits; and when no candidate fits, the first entry of the table, in the
    order of its keys, whose adjusted score [score + (fits ? 1000 : 0)] is
    the greatest of all eight.  On an empty table the answer is ['top']. *)
Theorem findBestPosition_first_fit_else_best_score
  (cTop cBottom cLeft cRight cTopLeft cTopRight cBottomLeft cBottomRight
     : Candidate.t) (preferred : string) :
  let table := tableOf cTop cBottom cLeft cRight cTopLeft cTopRight
                       cBottomLeft cBottomRight in
  preferred = EmptyString \/ preferred = "auto"%string
  \/ fitsIn table preferred = false ->
  priorityOrder
  = ["top"; "bottom"; "top-left"; "top-right";
     "bottom-left"; "bottom-right"; "right"; "left"]%string
  /\ determinePlacement table preferred = findBestPosition table
  /\ (forall before p after,
        priorityOrder = (before ++ p :: after)%list ->
        fitsIn table p = true ->
        (forall q, In q before -> fitsIn table q = false) ->
        findBestPosition table = p)
  /\ ((forall q, In q priorityOrder -> fitsIn table q = false) ->
      exists before d after,
        table = (before ++ (findBestPosition table, d) :: after)%list
        /\ (forall e, In e before ->
                      adjustedScore (snd e) < adjustedScore d)
        /\ (forall e, In e after ->
                      adjustedScore (snd e) <= adjustedScore d))
  /\ findBestPosition [] = "top"%string.
Proof.
  intros table Hpref.
  split; [reflexivity|].
  split; [now apply determinePlacement_fallback|].
  split; [|split; [|reflexivity]].
  - intros before p after E Hp Hq. unfold findBestPosition.
    rewrite E. now rewrite (firstFit_first table before after p Hp Hq).
  - intros Hnone. unfold findBestPosition.
    rewrite (firstFit_none table priorityOrder Hnone).
    apply scanBest_first_max. discriminate.
Qed.

Lemma findBestPosition_first_fit_else_best_score_witness :
  findBestPosition (positions demoWindow heroRegion) = "bottom"%string
  /\ determinePlacement (positions crampedWindow heroRegion) "top"
     = findBestPosition (positions crampedWindow heroRegion)
  /\ findBestPosition (positions crampedWindow heroRegion) = "bottom"%string
  /\ exists before d after,
       positions crampedWindow heroRegion
       = (before
          ++ (findBestPosition (positions crampedWindow heroRegion), d)
          :: after)%list
       /\ (forall e, In e before -> adjustedScore (snd e) < adjustedScore d)
       /\ (forall e, In e after -> adjustedScore (snd e) <= adjustedScore d).
Proof.
  pose (roomy := positions demoWindow heroRegion).
  pose (cramped := positions crampedWindow heroRegion).
  pose proof (findBestPosition_first_fit_else_best_score
                (entry roomy 0) (entry roomy 1) (entry roomy 2)
                (entry roomy 3) (entry roomy 4) (entry roomy 5)
                (entry roomy 6) (entry roomy 7) "auto"
                (or_intror (or_introl eq_refl))) as (_ & _ & First & _).
  pose proof (findBestPosition_first_fit_else_best_score
                (entry cramped 0) (entry cramped 1) (entry cramped 2)
                (entry cramped 3) (entry cramped 4) (entry cramped 5)
                (entry cramped 6) (entry cramped 7) "top"
                (or_intror (or_intror eq_refl))) as (_ & Same & _ & Best & _).
  split.
  - apply (First ["top"%string] "bottom"%string
             ["top-left"; "top-right"; "bottom-left"; "bottom-right";
              "right"; "left"]%string eq_refl eq_refl).
    intros q [<-|[]]. reflexivity.
  - split; [exact Same|]. split; [reflexivity|].
    apply Best. intros q Hq. simpl in Hq.
    repeat (destruct Hq as [<-|Hq]; [reflexivity|]). contradiction.
Defined.

(** C3, amended.  For every non-null region, window and preferred side,
    [calculatePosition] returns a tooltip top and left of at least 20; the
    top is at most [innerHeight - 250 - 20] when the window is at least 290
    high, and the left at most [innerWidth - 320 - 20] when the window is at
    least 360 wide. *)
Theorem calculatePosition_tooltip_within_padding
  (win : Window) (region : Region.t) (preferredPosition : option string) :
  exists res,
    calculatePosition win (Some region) preferredPosition = Some res
    /\ 20 <= Placement.tooltipTop res
    /\ 20 <= Placement.tooltipLeft res
    /\ (290 <= innerHeight win ->
        Placement.tooltipTop res <= innerHeight win - 250 - 20)
    /\ (360 <= innerWidth win ->
        Placement.tooltipLeft res <= innerWidth win - 320 - 20).
Proof.
  destruct (calculatePosition_returns win region preferredPosition)
    as (res & chosen & E & _ & _ & T & L).
  exists res. split; [exact E|]. rewrite T, L.
  unfold viewportPadding, tooltipHeight, tooltipWidth.
  repeat split.
  - apply Q.le_max_l.
  - apply Q.le_max_l.
  - intros H. apply Q.max_lub; [lra | apply Q.le_min_r].
  - intros H. apply Q.max_lub; [lra | apply Q.le_min_r].
Qed.

Lemma calculatePosition_tooltip_within_padding_witness :
  290 <= innerHeight demoWindow /\ 360 <= innerWidth demoWindow
  /\ exists res,
       calculatePosition demoWindow (Some heroRegion) (Some "left"%string)
       = Some res
       /\ 20 <= Placement.tooltipTop res <= 1080 - 250 - 20
       /\ 20 <= Placement.tooltipLeft res <= 1920 - 320 - 20.
Proof.
  split; [vm_compute; discriminate|]. split; [vm_compute; discriminate|].
  destruct (calculatePosition_tooltip_within_padding demoWindow heroRegion
              (Some "left"%string)) as (res & E & T & L & TH & LH).
  exists res. split; [exact E|]. split; split; auto.
  - apply TH. vm_compute; discriminate.
  - apply LH. vm_compute; discriminate.
Defined.

(** C3 as stated fails in a window lower than 290: the clamp returns the
    padding 20, which is above [innerHeight - 250 - 20]. *)
Lemma calculatePosition_small_window_above_upper_bound :
  exists res,
    calculatePosition smallWindow (Some heroRegion) None = Some res
    /\ Placement.tooltipTop res == 20
    /\ innerHeight smallWindow - 250 - 20 == -70
    /\ ~ (Placement.tooltipTop res <= innerHeight smallWindow - 250 - 20)
    /\ ~ (Placement.tooltipLeft res <= innerWidth smallWindow - 320 - 20).
Proof.
  eexists. split; [reflexivity|].
  split; [reflexivity|]. split; [reflexivity|].
  split; vm_compute; intros H; apply H; reflexivity.
Qed.

(** C4. In a 1920 x 1080 window, a region whose viewport rectangle is
    top 100, left 100, width 100, height 40, with preferred side ['auto'] (or
    none), is placed at ['bottom'] with tooltip top 170 and tooltip left 20
    (the raw left, 150 - 160 = -10, is clamped). *)
Theorem calculatePosition_scenario_A (win : Window) (region : Region.t)
  (preferredPosition : option string) :
  innerWidth win = 1920 -> innerHeight win = 1080 ->
  Region.viewportTop region = 100 -> Region.viewportLeft region = 100 ->
  Region.width region = 100 -> Region.height region = 40 ->
  preferredPosition = Some "auto"%string \/ preferredPosition = None ->
  exists res,
    calculatePosition win (Some region) preferredPosition = Some res
    /\ Placement.placement res = "bottom"%string
    /\ Placement.tooltipTop res == 170
    /\ Placement.tooltipLeft res == 20
    /\ fitsIn (positions win region) "top" = false
    /\ (exists data,
          lookup "bottom" (positions win region) = Some data
          /\ Candidate.left data == -10).
Proof.
  intros W H T L Wd Ht P.
  destruct win as [sx sy iw ih], region as [t l w h vt vl vr vb rects].
  simpl in *. subst.
  destruct P as [-> | ->];
    (eexists; split; [vm_compute; reflexivity|]);
    repeat split; try reflexivity; eexists; split; reflexivity.
Qed.

Lemma calculatePosition_scenario_A_witness :
  exists res,
    calculatePosition demoWindow (Some heroRegion) (Some "auto"%string)
    = Some res
    /\ Placement.placement res = "bottom"%string
    /\ Placement.tooltipTop res == 170
    /\ Placement.tooltipLeft res == 20.
Proof.
  destruct (calculatePosition_scenario_A demoWindow heroRegion
              (Some "auto"%string) eq_refl eq_refl eq_refl eq_refl eq_refl
              eq_refl (or_introl eq_refl))
    as (res & E & P & T & L & _).
  exists res. auto.
Defined.

(** ** Retry controller *)

Section Retry.
Variable props : Props.
Variable k : nat.
Variable s : Step.t.
Hypothesis Hstep : nth_error (sortedSteps props) k = Some s.

Lemma updateTargetPosition_retry (env : Document * Window) (st : State) :
  unresolved s env -> (retryCount st < maxRetries)%nat ->
  updateTargetPosition props (fst env) (snd env) k true st
  = setTimeout (RetryCallback k) 200
      (setRetryCount (retryCount st + 1)%nat st).
Proof.
  unfold unresolved, updateTargetPosition. intros U H.
  rewrite Hstep, U. apply Nat.ltb_lt in H. now rewrite H.
Qed.

Lemma updateTargetPosition_exhausted (env : Document * Window)
  (withRetry : bool) (st : State) :
  unresolved s env -> (maxRetries <= retryCount st)%nat ->
  updateTargetPosition props (fst env) (snd env) k withRetry st
  = skipToNextValidStep props k
      (setRetryCount 0%nat (emit (ConsoleWarn (Step.step s)) st)).
Proof.
  unfold unresolved, updateTargetPosition. intros U H.
  rewrite Hstep, U.
  assert (L : (retryCount st <? maxRetries)%nat = false)
    by (apply Nat.ltb_ge; exact H).
  rewrite L, andb_false_r. apply Nat.leb_le in H. now rewrite H.
Qed.

Lemma updateTargetPosition_passive_idle (env : Document * Window)
  (st : State) :
  unresolved s env -> (retryCount st < maxRetries)%nat ->
  updateTargetPosition props (fst env) (snd env) k false st = st.
Proof.
  unfold unresolved, updateTargetPosition. intros U H.
  assert (L : (maxRetries <=? retryCount st)%nat = false)
    by (apply Nat.leb_gt; exact H).
  now rewrite Hstep, U, L.
Qed.

Lemma fireTimer_retrying (env : Document * Window) (st0 st : State)
  (c : nat) :
  unresolved s env -> retrying k st0 c st -> (c < maxRetries)%nat ->
  retrying k st0 (S c) (fireTimer props (fst env) (snd env) st).
Proof.
  intros U -> H. unfold fireTimer. simpl.
  rewrite updateTargetPosition_retry by (simpl; auto).
  unfold retrying, setTimeout, setRetryCount. simpl.
  now rewrite Nat.add_1_r.
Qed.

Lemma fireTimer_exhausted (env : Document * Window) (st0 st : State) :
  unresolved s env -> retrying k st0 maxRetries st ->
  fireTimer props (fst env) (snd env) st
  = skipToNextValidStep props k
      (mkState (currentStepIndex st0) (targetRect st0) (isVisible st0)
               0 [] (trace st0 ++ [ConsoleWarn (Step.step s)])).
Proof.
  intros U ->. unfold fireTimer. simpl.
  now rewrite updateTargetPosition_exhausted by (simpl; auto).
Qed.
End Retry.

Lemma firstn_snoc {A : Type} (l : list A) (n : nat) :
  (n < List.length l)%nat ->
  exists x, nth_error l n = Some x /\ firstn (S n) l = (firstn n l ++ [x])%list.
Proof.
  revert n. induction l as [|a l IH]; intros n H; simpl in H; [lia|].
  destruct n as [|n].
  - exists a. split; reflexivity.
  - destruct (IH n) as (x & E & F); [lia|].
    exists x. split; [exact E|]. simpl. simpl in F. now rewrite F.
Qed.

Lemma retryRun_retrying (props : Props) (s : Step.t)
  (env0 : Document * Window) (envs : list (Document * Window)) (st : State) :
  nth_error (sortedSteps props) (currentStepIndex st) = Some s ->
  retryCount st = 0%nat -> timers st = [] ->
  Forall (unresolved s) (env0 :: envs) ->
  forall n, (n <= List.length envs)%nat -> (n < maxRetries)%nat ->
    retrying (currentStepIndex st) st (S n) (retryRun props env0 envs st n).
Proof.
  intros Hs Hc Ht Hall. inversion Hall as [|? ? U0 Us]; subst.
  induction n as [|n IH]; intros Hlen Hn.
  - unfold retryRun, enterStep. simpl.
    rewrite (updateTargetPosition_retry props _ s Hs env0)
      by (auto; rewrite Hc; unfold maxRetries; lia).
    unfold retrying, setTimeout, setRetryCount. simpl. now rewrite Hc, Ht.
  - destruct (firstn_snoc envs n) as (env & E & F); [lia|].
    unfold retryRun, fireTimers. rewrite F, fold_left_app. simpl.
    apply (fireTimer_retrying props _ s Hs env).
    + rewrite Forall_forall in Us. apply Us. eapply nth_error_In; eauto.
    + apply IH; lia.
    + exact Hn.
Qed.

(** The effects of a skip, after the warning. *)
Lemma skipToNextValidStep_effects (props : Props) (k : nat) (st : State) :
  let final := skipToNextValidStep props k st in
  let nextStep := nth_error (sortedSteps props) (k + 1) in
  retryCount final = retryCount st /\ timers final = timers st
  /\ targetRect final = targetRect st /\ isVisible final = isVisible st
  /\ (isLastStep props k = true ->
      currentStepIndex final = currentStepIndex st
      /\ trace final
         = (trace st
            ++ (if onComplete props then [CallOnComplete] else []))%list)
  /\ (isLastStep props k = false ->
      currentStepIndex final = (k + 1)%nat
      /\ exists navigation,
           trace final
           = (trace st
              ++ (if onStepChange props
                  then [CallOnStepChange (stepOf nextStep) (pathOf nextStep)]
                  else [])
              ++ navigation)%list
           /\ Forall isCallOnNavigate navigation
           /\ (truthy (pathOf nextStep) = None \/ onNavigate props = false ->
               navigation = [])).
Proof.
  unfold skipToNextValidStep. cbv zeta.
  destruct (isLastStep props k).
  - destruct (onComplete props); simpl; rewrite ?app_nil_r;
      (do 4 (split; [reflexivity|])); (split; [auto | discriminate]).
  - set (nextStep := nth_error (sortedSteps props) (k + 1)).
    set (change := CallOnStepChange (stepOf nextStep) (pathOf nextStep)).
    assert (Nav : forall p, Forall isCallOnNavigate [CallOnNavigate p])
      by (intros p; repeat constructor; now exists p).
    destruct (truthy (pathOf nextStep)) as [p|] eqn:T;
      [destruct (onNavigate props) eqn:N|];
      destruct (onStepChange props); simpl;
      (do 4 (split; [reflexivity|])); (split; [discriminate|]);
      intros _; (split; [reflexivity|]).
    1, 2: exists [CallOnNavigate p]; rewrite <- ?app_assoc; simpl;
      (split; [reflexivity|]); (split; [apply Nav|]);
      intros [H|H]; discriminate.
    all: exists []; rewrite ?app_nil_r; simpl; auto.
Qed.

Lemma nth_error_not_last (props : Props) (k : nat) (next : Step.t) :
  nth_error (sortedSteps props) (k + 1) = Some next ->
  isLastStep props k = false.
Proof.
  intros H. unfold isLastStep. apply Nat.eqb_neq.
  assert (L : (k + 1 < List.length (sortedSteps props))%nat)
    by (apply nth_error_Some; congruence).
  lia.
Qed.

(** [handleNext] when it does not navigate: the last step, a host without
    [onNavigate], or no truthy [nextPath] and no truthy path ahead. *)
Lemma handleNext_at_once (props : Props) (st : State) (s : Step.t) :
  let k := currentStepIndex st in
  let nextStep := nth_error (sortedSteps props) (k + 1) in
  nth_error (sortedSteps props) k = Some s ->
  (isLastStep props k = true ->
   handleNext props st
   = emitIf (onComplete props) CallOnComplete
       (mkState k (targetRect st) (isVisible st) (retryCount st) (timers st)
                (trace st ++ onNextEffects s)))
  /\ (isLastStep props k = false ->
      onNavigate props = false
      \/ (truthy (Step.nextPath s) = None
          /\ truthy (pathOf nextStep) = None) ->
      handleNext props st
      = emitIf (onStepChange props)
          (CallOnStepChange (stepOf nextStep) (pathOf nextStep))
          (mkState (k + 1) (targetRect st) (isVisible st) (retryCount st)
                   (timers st) (trace st ++ onNextEffects s))).
Proof.
  intros k nextStep Hs.
  assert (E0 : (if Step.onNext s then emit (CallOnNext (Step.step s)) st
                else st)
               = mkState k (targetRect st) (isVisible st) (retryCount st)
                         (timers st) (trace st ++ onNextEffects s)).
  { unfold onNextEffects, emit. destruct (Step.onNext s).
    - reflexivity.
    - rewrite app_nil_r. now destruct st. }
  unfold handleNext. fold k. rewrite Hs. cbn [nextPathOf pathOf].
  rewrite E0. fold nextStep. split.
  - intros ->. reflexivity.
  - intros -> H. unfold is_truthy, setCurrentStepIndex. simpl.
    destruct H as [N | [N1 N2]].
    + rewrite N, andb_false_r. now destruct (truthy _).
    + rewrite N1, N2. reflexivity.
Qed.

(** A skip that is not on the last step, effect by effect. *)
Lemma skipToNextValidStep_not_last (props : Props) (k : nat) (st : State) :
  isLastStep props k = false ->
  let nextStep := nth_error (sortedSteps props) (k + 1) in
  skipToNextValidStep props k st
  = mkState (k + 1) (targetRect st) (isVisible st) (retryCount st)
      (timers st)
      (trace st
       ++ (if onStepChange props
           then [CallOnStepChange (stepOf nextStep) (pathOf nextStep)]
           else [])
       ++ match truthy (pathOf nextStep) with
          | Some p => if onNavigate props then [CallOnNavigate p] else []
          | None => []
          end).
Proof.
  intros L. unfold skipToNextValidStep. rewrite L. cbv zeta.
  unfold emitIf, emit, setCurrentStepIndex.
  destruct (onStepChange props), (truthy _), (onNavigate props); simpl;
    rewrite ?app_nil_r, <- ?app_assoc; reflexivity.
Qed.

(** C5, amended.  A step is entered with the counter at 0 and no timer
    pending, and its targets are found neither then nor at any of the next
    15 timer firings.  Then each of the first 15 passes schedules one retry
    (after [n < 15] firings the counter is [n + 1], at most 15, one 200 ms
    timer is pending and nothing else has changed), and the 15th retry
    resets the counter to 0, leaves no timer and skips without calling
    [onNext]: on the last step it calls [onComplete] and keeps the index;
    otherwise it moves the index to the next step, calls [onStepChange] at
    once and then [onNavigate] with the next step's path, when that path is
    not empty and [onNavigate] is supplied, and nothing else.  On the last
    step, for a host without [onNavigate], or when neither the step has a
    [nextPath] nor the next step a path, this is what [handleNext] does
    apart from [onNext]. *)
Theorem retry_budget_exhausted_then_skip
  (props : Props) (s : Step.t) (env0 : Document * Window)
  (envs : list (Document * Window)) (st : State) :
  nth_error (sortedSteps props) (currentStepIndex st) = Some s ->
  retryCount st = 0%nat -> timers st = [] ->
  Forall (unresolved s) (env0 :: envs) ->
  List.length envs = 15%nat ->
  let k := currentStepIndex st in
  let nextStep := nth_error (sortedSteps props) (k + 1) in
  let final := retryRun props env0 envs st 15 in
  (forall n, (n < 15)%nat ->
     let mid := retryRun props env0 envs st n in
     retryCount mid = S n /\ (retryCount mid <= 15)%nat
     /\ timers mid = [mkTimer 200 (RetryCallback k)]
     /\ currentStepIndex mid = k /\ trace mid = trace st
     /\ targetRect mid = targetRect st /\ isVisible mid = isVisible st)
  /\ retryCount final = 0%nat /\ timers final = []
  /\ (isLastStep props k = true ->
      currentStepIndex final = k
      /\ trace final
         = (trace st ++ ConsoleWarn (Step.step s)
            :: (if onComplete props then [CallOnComplete] else []))%list)
  /\ (isLastStep props k = false ->
      currentStepIndex final = (k + 1)%nat
      /\ exists navigation,
           trace final
           = (trace st ++ ConsoleWarn (Step.step s)
              :: (if onStepChange props
                  then [CallOnStepChange (stepOf nextStep) (pathOf nextStep)]
                  else [])
              ++ navigation)%list
           /\ (forall p, truthy (pathOf nextStep) = Some p ->
                         onNavigate props = true ->
                         navigation = [CallOnNavigate p])
           /\ (truthy (pathOf nextStep) = None \/ onNavigate props = false ->
               navigation = []))
  /\ (isLastStep props k = true \/ onNavigate props = false
      \/ (truthy (Step.nextPath s) = None
          /\ truthy (pathOf nextStep) = None) ->
      exists rest,
        trace final = (trace st ++ ConsoleWarn (Step.step s) :: rest)%list
        /\ trace (handleNext props st)
           = (trace st ++ onNextEffects s ++ rest)%list
        /\ currentStepIndex final = currentStepIndex (handleNext props st)
        /\ timers final = timers (handleNext props st)).
Proof.
  intros Hs Hc Ht Hall Hlen k nextStep final.
  assert (Mid : forall n, (n < 15)%nat ->
            retrying k st (S n) (retryRun props env0 envs st n)).
  { intros n Hn. apply (retryRun_retrying props s); auto.
    rewrite Hlen. lia. }
  assert (Fin : final
                = skipToNextValidStep props k
                    (mkState k (targetRect st) (isVisible st) 0 []
                       (trace st ++ [ConsoleWarn (Step.step s)]))).
  { destruct (firstn_snoc envs 14) as (env & E & F); [lia|].
    unfold final, retryRun, fireTimers. rewrite F, fold_left_app. simpl.
    apply (fireTimer_exhausted props k s Hs env st).
    - inversion Hall as [|? ? _ Us]; subst. rewrite Forall_forall in Us.
      apply Us. eapply nth_error_In; eauto.
    - apply (Mid 14%nat). lia. }
  destruct (skipToNextValidStep_effects props k
              (mkState k (targetRect st) (isVisible st) 0 []
                 (trace st ++ [ConsoleWarn (Step.step s)])))
    as (Rc & Tm & _ & _ & Last & NotLast).
  rewrite <- Fin in Rc, Tm, Last, NotLast. simpl in Rc, Tm, Last, NotLast.
  fold nextStep in NotLast.
  split.
  { intros n Hn mid. unfold mid. rewrite (Mid n Hn). simpl.
    repeat split; auto; lia. }
  split; [exact Rc|]. split; [exact Tm|].
  split.
  { intros L. destruct (Last L) as [I T]. split; [exact I|].
    rewrite T, <- app_assoc. reflexivity. }
  split.
  { intros L. split; [now destruct (NotLast L)|].
    rewrite Fin, (skipToNextValidStep_not_last props k _ L).
    cbn [trace]. fold nextStep.
    eexists. split; [rewrite <- app_assoc; reflexivity|].
    split.
    - intros p -> ->. reflexivity.
    - intros [-> | ->]; [reflexivity | now destruct (truthy _)]. }
  intros H.
  destruct (handleNext_at_once props st s Hs) as [NextLast NextNotLast].
  fold k in NextLast, NextNotLast. fold nextStep in NextNotLast.
  destruct (isLastStep props k) eqn:L.
  - destruct (Last eq_refl) as [I T]. rewrite (NextLast eq_refl).
    exists (if onComplete props then [CallOnComplete] else []).
    rewrite T, I, Tm, <- app_assoc. unfold emitIf, emit.
    destruct (onComplete props); simpl; rewrite ?app_nil_r, <- ?app_assoc;
      auto.
  - destruct H as [H|H]; [discriminate|].
    destruct (NotLast eq_refl) as (I & nav & T & _ & Nil).
    rewrite (NextNotLast eq_refl H).
    rewrite (Nil ltac:(tauto)) in T.
    exists (if onStepChange props
            then [CallOnStepChange (stepOf nextStep) (pathOf nextStep)]
            else []).
    rewrite T, I, Tm, <- !app_assoc. unfold emitIf, emit.
    destruct (onStepChange props); simpl; rewrite ?app_nil_r, <- ?app_assoc;
      auto.
Qed.

Lemma retry_budget_exhausted_then_skip_witness :
  let final :=
    retryRun tourPropsNoNavigate emptyPage (repeat emptyPage 15)
             initialState 15 in
  retryCount final = 0%nat /\ timers final = []
  /\ currentStepIndex final = 1%nat
  /\ (exists rest,
        trace final = ConsoleWarn 1 :: rest
        /\ trace (handleNext tourPropsNoNavigate initialState) = rest)
  /\ retryCount (retryRun tourPropsNoNavigate emptyPage
                   (repeat emptyPage 15) initialState 14) = 15%nat.
Proof.
  destruct (retry_budget_exhausted_then_skip tourPropsNoNavigate ghostStep
              emptyPage (repeat emptyPage 15) initialState)
    as (Mid & Rc & Tm & _ & NotLast & Same).
  - reflexivity.
  - reflexivity.
  - reflexivity.
  - repeat constructor.
  - reflexivity.
  - cbv zeta. split; [exact Rc|]. split; [exact Tm|].
    split; [apply NotLast; reflexivity|]. split.
    + destruct Same as (rest & T & N & _); [right; left; reflexivity|].
      exists rest. split; [exact T | exact N].
    + apply (Mid 14%nat). lia.
Defined.

(** C5 as stated fails in two ways.  Where Next navigates: on a step with
    a [nextPath], [handleNext] calls [onNavigate] and advances 50 ms later,
    while the skip after exhaustion advances at once and never calls
    [onNavigate].  And where the counter is not 0 at the entry: the hero
    step is shown, Next is clicked, the next step is retried six times, Next
    is clicked again; the last step -- whose target is on no page -- is
    entered with the counter at 7 and the retry of the step before still
    pending, and eight timer firings later, four of them its own, it is
    warned about and the tour completed. *)
Lemma retry_skip_is_not_next_without_onNext :
  let final :=
    retryRun tourProps emptyPage (repeat emptyPage 15) initialState 15 in
  let next := handleNext tourProps initialState in
  let later := fireTimer tourProps emptyDocument demoWindow next in
  let fewer :=
    handleEvents staleProps
      ((StepEntered, demoPage) :: repeat (TimerFired 0, demoPage) 8)
      staleEntry in
  (nth_error (sortedSteps tourProps) 0 = Some ghostStep
   /\ Step.onNext ghostStep = false
   /\ trace final = [ConsoleWarn 1; CallOnStepChange (Some 2%Z) None]
   /\ currentStepIndex final = 1%nat
   /\ trace next = [CallOnNavigate "/about"]
   /\ currentStepIndex next = 0%nat
   /\ timers next = [mkTimer 50 (AdvanceCallback 1 (Some 2%Z) None)]
   /\ trace later
      = [CallOnNavigate "/about"; CallOnStepChange (Some 2%Z) None]
   /\ ~ In (CallOnNavigate "/about") (trace final))
  /\ (nth_error (sortedSteps staleProps) 2 = Some lastGhost
      /\ unresolved lastGhost demoPage
      /\ currentStepIndex staleEntry = 2%nat
      /\ retryCount staleEntry = 7%nat
      /\ timers staleEntry = [mkTimer 200 (RetryCallback 1)]
      /\ trace fewer
         = (trace staleEntry ++ [ConsoleWarn 3; CallOnComplete])%list
      /\ retryCount fewer = 0%nat).
Proof.
  cbv zeta. split.
  - repeat (split; [reflexivity|]).
    vm_compute. intros [H|[H|[]]]; discriminate.
  - repeat split; vm_compute; reflexivity.
Qed.

(** C6 fails on the code at a full counter.  After a step entry and 14
    retries that found nothing the counter is 15 and the last retry is
    pending; a scroll or resize event then takes the exhaustion branch of
    [updateTargetPosition]: it warns, resets the counter and skips to the
    next step, and the pending retry of the abandoned step stays armed. *)
Theorem passive_pass_at_full_counter_skips :
  let waiting :=
    retryRun tourProps emptyPage (repeat emptyPage 14) initialState 14 in
  let after :=
    handlePositionUpdate tourProps emptyDocument demoWindow waiting in
  unresolved ghostStep emptyPage
  /\ retryCount waiting = 15%nat /\ currentStepIndex waiting = 0%nat
  /\ timers waiting = [mkTimer 200 (RetryCallback 0)] /\ trace waiting = []
  /\ retryCount after = 0%nat /\ currentStepIndex after = 1%nat
  /\ trace after = [ConsoleWarn 1; CallOnStepChange (Some 2%Z) None]
  /\ timers after = [mkTimer 200 (RetryCallback 0)]
  /\ after <> waiting.
Proof.
  cbv zeta. repeat (split; [reflexivity|]).
  vm_compute. discriminate.
Qed.

(** What does hold of a passive pass that finds nothing: it schedules no
    timer and never raises the counter, and below a full counter it changes
    nothing at all. *)
Lemma passive_pass_schedules_nothing (props : Props) (s : Step.t)
  (env : Document * Window) (st : State) :
  nth_error (sortedSteps props) (currentStepIndex st) = Some s ->
  unresolved s env ->
  let after := handlePositionUpdate props (fst env) (snd env) st in
  timers after = timers st /\ (retryCount after <= retryCount st)%nat
  /\ ((retryCount st < maxRetries)%nat -> after = st).
Proof.
  intros Hs U after. unfold after, handlePositionUpdate.
  destruct (Nat.lt_ge_cases (retryCount st) maxRetries) as [L|G].
  - rewrite (updateTargetPosition_passive_idle props _ s Hs env st U L).
    auto.
  - rewrite (updateTargetPosition_exhausted props _ s Hs env false st U G).
    destruct (skipToNextValidStep_effects props (currentStepIndex st)
                (setRetryCount 0%nat (emit (ConsoleWarn (Step.step s)) st)))
      as (Rc & Tm & _).
    rewrite Rc, Tm. simpl. repeat split; [lia|]. intros L. lia.
Qed.

(** ** Next *)

Lemma option_string_eqb_eq (a b : option string) :
  option_string_eqb a b = true <-> a = b.
Proof.
  destruct a as [x|], b as [y|]; simpl; try (split; congruence).
  rewrite String.eqb_eq. split; congruence.
Qed.

Lemma truthy_Some (o : option string) (p : string) :
  truthy o = Some p -> o = Some p.
Proof.
  destruct o as [q|]; simpl; [|discriminate].
  destruct (String.eqb q ""); [discriminate | tauto].
Qed.

Lemma truthy_idem (o : option string) (p : string) :
  truthy o = Some p -> truthy (Some p) = Some p.
Proof.
  destruct o as [q|]; simpl; [|discriminate].
  destruct (String.eqb q "") eqn:E; [discriminate|].
  intros [= <-]. now rewrite E.
Qed.

(** [handleNext] on a step that is not the last, after the [onNext] call. *)
Lemma handleNext_not_last (props : Props) (st : State) (cur next : Step.t) :
  let k := currentStepIndex st in
  nth_error (sortedSteps props) k = Some cur ->
  nth_error (sortedSteps props) (k + 1) = Some next ->
  let st0 := mkState k (targetRect st) (isVisible st) (retryCount st)
                     (timers st) (trace st ++ onNextEffects cur) in
  let advance :=
    emitIf (onStepChange props)
      (CallOnStepChange (Some (Step.step next)) (Step.path next))
      (setCurrentStepIndex (k + 1) st0) in
  handleNext props st
  = match truthy (match truthy (Step.nextPath cur) with
                  | Some p => Some p
                  | None => Step.path next
                  end) with
    | Some p =>
        if (is_truthy (Step.nextPath cur)
            || (is_truthy (Step.path next)
                && negb (option_string_eqb (Step.path next) (Step.path cur))))
           && onNavigate props
        then setTimeout
               (AdvanceCallback (k + 1) (Some (Step.step next))
                  (Step.path next))
               50 (emit (CallOnNavigate p) st0)
        else advance
    | None => advance
    end.
Proof.
  intros k Hs Hn st0 advance.
  assert (E0 : (if Step.onNext cur then emit (CallOnNext (Step.step cur)) st
                else st) = st0).
  { unfold st0, onNextEffects, emit. destruct (Step.onNext cur).
    - reflexivity.
    - rewrite app_nil_r. now destruct st. }
  unfold handleNext. fold k.
  rewrite (nth_error_not_last props k next Hn), Hs, Hn.
  cbn [nextPathOf pathOf stepOf option_map]. rewrite E0. reflexivity.
Qed.

(** C9, amended.  On a step that is not the last, Next requires navigation
    when the current step has a (non-empty) [nextPath] or the next step has
    a (non-empty) path different from the current step's.  When navigation
    is required and the host supplied [onNavigate], [handleNext] calls
    [onNavigate] with the [nextPath], else the next step's path, leaves the
    index alone and schedules a 50 ms callback that moves the index and
    calls [onStepChange].  When navigation is not required, or no
    [onNavigate] was supplied, the index moves and [onStepChange] is called
    at once, with no navigation and no timer. *)
Theorem handleNext_navigation_then_delayed_advance
  (props : Props) (st : State) (cur next : Step.t) :
  let k := currentStepIndex st in
  nth_error (sortedSteps props) k = Some cur ->
  nth_error (sortedSteps props) (k + 1) = Some next ->
  let required :=
    truthy (Step.nextPath cur) <> None
    \/ (truthy (Step.path next) <> None
        /\ Step.path next <> Step.path cur) in
  let change :=
    if onStepChange props
    then [CallOnStepChange (Some (Step.step next)) (Step.path next)]
    else [] in
  let advanceLater :=
    AdvanceCallback (k + 1) (Some (Step.step next)) (Step.path next) in
  let after := handleNext props st in
  (required -> onNavigate props = true ->
   exists target,
     (truthy (Step.nextPath cur) = Some target
      \/ (truthy (Step.nextPath cur) = None
          /\ truthy (Step.path next) = Some target))
     /\ currentStepIndex after = k
     /\ trace after
        = (trace st ++ onNextEffects cur ++ [CallOnNavigate target])%list
     /\ timers after = (timers st ++ [mkTimer 50 advanceLater])%list
     /\ forall doc win st',
          let later := runCallback props doc win advanceLater st' in
          currentStepIndex later = (k + 1)%nat
          /\ trace later = (trace st' ++ change)%list
          /\ timers later = timers st')
  /\ (~ required \/ onNavigate props = false ->
      currentStepIndex after = (k + 1)%nat
      /\ trace after = (trace st ++ onNextEffects cur ++ change)%list
      /\ timers after = timers st).
Proof.
  intros k Hs Hn required change advanceLater after.
  unfold after. rewrite (handleNext_not_last props st cur next Hs Hn).
  fold k. fold advanceLater.
  assert (Adv : forall st0 : State,
            let a := emitIf (onStepChange props)
                       (CallOnStepChange (Some (Step.step next))
                          (Step.path next))
                       (setCurrentStepIndex (k + 1) st0) in
            currentStepIndex a = (k + 1)%nat
            /\ trace a = (trace st0 ++ change)%list
            /\ timers a = timers st0).
  { intros st0. unfold change, emitIf, emit.
    destruct (onStepChange props); simpl; rewrite ?app_nil_r; auto. }
  assert (Req : (is_truthy (Step.nextPath cur)
                 || (is_truthy (Step.path next)
                     && negb (option_string_eqb (Step.path next)
                                                (Step.path cur)))) = true
                <-> required).
  { unfold required, is_truthy.
    rewrite orb_true_iff, andb_true_iff, negb_true_iff.
    rewrite <- not_true_iff_false, option_string_eqb_eq.
    destruct (truthy (Step.nextPath cur)), (truthy (Step.path next));
      intuition congruence. }
  split.
  - intros R N. apply Req in R. rewrite R, N. simpl.
    assert (T : exists target,
              truthy (match truthy (Step.nextPath cur) with
                      | Some p => Some p
                      | None => Step.path next
                      end) = Some target
              /\ (truthy (Step.nextPath cur) = Some target
                  \/ (truthy (Step.nextPath cur) = None
                      /\ truthy (Step.path next) = Some target))).
    { unfold is_truthy in R.
      destruct (truthy (Step.nextPath cur)) as [p|] eqn:E1.
      - exists p. split; [|now left]. now apply truthy_idem in E1.
      - simpl in R. destruct (truthy (Step.path next)) as [p|] eqn:E2;
          [|discriminate].
        exists p. auto. }
    destruct T as (target & -> & Which).
    exists target. split; [exact Which|]. simpl.
    rewrite <- app_assoc. repeat split; auto; apply (Adv st').
  - intros H.
    assert (G : (is_truthy (Step.nextPath cur)
                 || (is_truthy (Step.path next)
                     && negb (option_string_eqb (Step.path next)
                                                (Step.path cur))))
                && onNavigate props = false).
    { apply andb_false_iff. destruct H as [H|H]; [left | now right].
      apply not_true_iff_false. now rewrite Req. }
    rewrite G.
    match goal with
    | |- context [setCurrentStepIndex _ ?s0] =>
        destruct (Adv s0) as (I & T & M)
    end.
    assert (T' : forall a b c : list Effect,
               ((a ++ b) ++ c = a ++ b ++ c)%list)
      by (intros; now rewrite app_assoc).
    destruct (truthy (match truthy (Step.nextPath cur) with
                      | Some p => Some p
                      | None => Step.path next
                      end));
      (split; [exact I | split; [rewrite T; apply T' | exact M]]).
Qed.

Lemma handleNext_navigation_then_delayed_advance_witness :
  let after := handleNext tourProps initialState in
  currentStepIndex after = 0%nat
  /\ trace after = [CallOnNavigate "/about"]
  /\ timers after = [mkTimer 50 (AdvanceCallback 1 (Some 2%Z) None)]
  /\ currentStepIndex (fireTimer tourProps emptyDocument demoWindow after)
     = 1%nat.
Proof.
  destruct (handleNext_navigation_then_delayed_advance tourProps initialState
              ghostStep heroStep eq_refl eq_refl) as [Nav _].
  destruct Nav as (target & Which & I & T & M & Later).
  - left. discriminate.
  - reflexivity.
  - cbv zeta. split; [exact I|].
    destruct Which as [W|[W _]]; [|discriminate].
    injection W as <-.
    split; [exact T|]. split; [exact M|]. reflexivity.
Defined.

(** C9 as stated fails for a host without [onNavigate]: the step has a
    [nextPath], so navigation is required, yet no navigation callback is
    invoked and the index moves at once. *)
Lemma handleNext_without_onNavigate_advances_at_once :
  let after := handleNext tourPropsNoNavigate initialState in
  nth_error (sortedSteps tourPropsNoNavigate) 0 = Some ghostStep
  /\ nth_error (sortedSteps tourPropsNoNavigate) 1 = Some heroStep
  /\ truthy (Step.nextPath ghostStep) = Some "/about"%string
  /\ currentStepIndex initialState = 0%nat
  /\ currentStepIndex after = 1%nat
  /\ timers after = []
  /\ trace after = [CallOnStepChange (Some 2%Z) None].
Proof.
  cbv zeta. repeat split; reflexivity.
Qed.

(** * Further properties *)

(** ** Target resolver: degenerate steps, order and growth *)

Lemma Rect_eta (r : Rect.t) :
  Rect.mk (Rect.top r) (Rect.left r) (Rect.right r) (Rect.bottom r)
          (Rect.width r) (Rect.height r) = r.
Proof. now destruct r. Qed.

Lemma collectRects_Permutation (doc : Document)
  (xs ys : list (option Target.t)) :
  Permutation xs ys ->
  Permutation (collectRects doc xs) (collectRects doc ys).
Proof.
  induction 1 as [|x xs ys _ IH|x y xs|xs ys zs _ IH1 _ IH2]; simpl.
  - constructor.
  - destruct (getTargetElement doc x); [now constructor | exact IH].
  - destruct (getTargetElement doc x), (getTargetElement doc y);
      try apply Permutation_refl. apply perm_swap.
  - eapply Permutation_trans; eauto.
Qed.

(** The minimum over a list is below the minimum over a list it
    contains; likewise for the maximum. *)
Lemma Math_min_incl (x y : Q) (xs ys : list Q) :
  incl (x :: xs) (y :: ys) -> Math_min y ys <= Math_min x xs.
Proof.
  intros H. pose proof (Math_min_lower ys y) as L.
  rewrite Forall_forall in L. apply L, H, Math_min_In.
Qed.

Lemma Math_max_incl (x y : Q) (xs ys : list Q) :
  incl (x :: xs) (y :: ys) -> Math_max x xs <= Math_max y ys.
Proof.
  intros H. pose proof (Math_max_upper ys y) as U.
  rewrite Forall_forall in U. apply U, H, Math_max_In.
Qed.

Lemma incl_map_cons {A : Type} (f : A -> Q) (r r' : A) (rs rs' : list A) :
  incl (r :: rs) (r' :: rs') ->
  incl (f r :: map f rs) (f r' :: map f rs').
Proof. intros H. now apply (incl_map f) in H. Qed.

(** X1. A step that names nothing that could be looked up -- a targets
    list holding only nulls and descriptors without a usable [id] or
    [className], or no list and no usable [id] or [className] of its own --
    resolves in no document. *)
Theorem step_without_usable_target_never_resolves (s : Step.t) :
  (exists ts, Step.targets s = Some ts
      /\ Forall (fun t => match t with
                          | None => True
                          | Some d => truthy (Target.id d) = None
                                      /\ truthy (Target.className d) = None
                          end) ts)
  \/ (Step.targets s = None /\ truthy (Step.id s) = None
      /\ truthy (Step.className s) = None) ->
  forall env, unresolved s env.
Proof.
  intros H [doc win]. unfold unresolved. simpl.
  apply getCombinedRect_none, collectRects_nil_iff.
  unfold getStepTargets, is_truthy.
  destruct H as [(ts & -> & F) | (-> & -> & ->)]; [|constructor].
  eapply Forall_impl; [|exact F].
  intros [d|] Hd; simpl; [|reflexivity].
  destruct Hd as [-> ->]. reflexivity.
Qed.

Lemma step_without_usable_target_never_resolves_witness :
  unresolved (Step.mk 3 (Some ""%string) None None None None false None)
             (demoDocument, demoWindow)
  /\ unresolved (Step.mk 4 (Some "hero"%string) None
                         (Some [None; Some (Target.mk None None)])
                         None None false None)
                (demoDocument, demoWindow).
Proof.
  split.
  - apply step_without_usable_target_never_resolves.
    right. repeat split; reflexivity.
  - apply step_without_usable_target_never_resolves.
    left. eexists. split; [reflexivity|].
    repeat constructor.
Defined.

(** X2. A step with one target of its own whose [id] is found: the region
    is that element's rectangle, with width and height taken from its
    edges, and it counts as a single target. *)
Theorem single_target_region_is_the_rectangle
  (doc : Document) (win : Window) (s : Step.t) (i : string) (e : Element) :
  Step.targets s = None -> truthy (Step.id s) = Some i ->
  getElementById doc i = Some e ->
  let r := getBoundingClientRect e in
  exists region,
    getCombinedRect doc win (getStepTargets s) = Some region
    /\ Region.individualRects region = [r]
    /\ Region.viewportTop region = Rect.top r
    /\ Region.viewportLeft region = Rect.left r
    /\ Region.viewportRight region = Rect.right r
    /\ Region.viewportBottom region = Rect.bottom r
    /\ Region.width region = Rect.right r - Rect.left r
    /\ Region.height region = Rect.bottom r - Rect.top r
    /\ Overlay.hasMultipleTargets region = false.
Proof.
  intros Ht Hi He r.
  unfold getStepTargets, is_truthy. rewrite Ht, Hi. simpl.
  unfold getCombinedRect. simpl. rewrite Hi, He. fold r.
  rewrite Rect_eta. eexists. split; [reflexivity|].
  repeat split.
Qed.

Lemma single_target_region_is_the_rectangle_witness :
  exists region,
    getCombinedRect demoDocument demoWindow
      (getStepTargets
         (Step.mk 2 (Some "hero"%string) None None None None false None))
    = Some region
    /\ Region.individualRects region = [heroRect]
    /\ Region.width region = Rect.right heroRect - Rect.left heroRect.
Proof.
  destruct (single_target_region_is_the_rectangle demoDocument demoWindow
              (Step.mk 2 (Some "hero"%string) None None None None false None)
              "hero" (mkElement heroRect) eq_refl eq_refl eq_refl)
    as (region & E & R & _ & _ & _ & _ & W & _).
  exists region. auto.
Defined.

(** X3. The order of the descriptors does not matter to the bounds:
    two lists with the same descriptors in another order give null
    together, or regions with equal edges, sizes and document coordinates
    and the same rectangles up to order. *)
Theorem getCombinedRect_order_irrelevant
  (doc : Document) (win : Window) (targets targets' : list (option Target.t)) :
  Permutation targets targets' ->
  match getCombinedRect doc win targets, getCombinedRect doc win targets' with
  | None, None => True
  | Some a, Some b =>
      Region.viewportLeft a == Region.viewportLeft b
      /\ Region.viewportTop a == Region.viewportTop b
      /\ Region.viewportRight a == Region.viewportRight b
      /\ Region.viewportBottom a == Region.viewportBottom b
      /\ Region.width a == Region.width b
      /\ Region.height a == Region.height b
      /\ Region.top a == Region.top b /\ Region.left a == Region.left b
      /\ Permutation (Region.individualRects a) (Region.individualRects b)
  | _, _ => False
  end.
Proof.
  intros P. apply (collectRects_Permutation doc) in P.
  unfold getCombinedRect.
  destruct (collectRects doc targets) as [|r rs],
           (collectRects doc targets') as [|r' rs'].
  - exact I.
  - now apply Permutation_nil in P.
  - apply Permutation_sym in P. now apply Permutation_nil in P.
  - assert (I1 : incl (r :: rs) (r' :: rs'))
      by (intros x; apply Permutation_in; exact P).
    assert (I2 : incl (r' :: rs') (r :: rs))
      by (intros x; apply Permutation_in; now apply Permutation_sym).
    assert (L : Math_min (Rect.left r) (map Rect.left rs)
                == Math_min (Rect.left r') (map Rect.left rs'))
      by (apply Qle_antisym; apply Math_min_incl;
          now apply (incl_map_cons Rect.left)).
    assert (T : Math_min (Rect.top r) (map Rect.top rs)
                == Math_min (Rect.top r') (map Rect.top rs'))
      by (apply Qle_antisym; apply Math_min_incl;
          now apply (incl_map_cons Rect.top)).
    assert (R : Math_max (Rect.right r) (map Rect.right rs)
                == Math_max (Rect.right r') (map Rect.right rs'))
      by (apply Qle_antisym; apply Math_max_incl;
          now apply (incl_map_cons Rect.right)).
    assert (B : Math_max (Rect.bottom r) (map Rect.bottom rs)
                == Math_max (Rect.bottom r') (map Rect.bottom rs'))
      by (apply Qle_antisym; apply Math_max_incl;
          now apply (incl_map_cons Rect.bottom)).
    simpl. rewrite L, T, R, B. repeat split; try reflexivity. exact P.
Qed.

Lemma getCombinedRect_order_irrelevant_witness :
  match getCombinedRect demoDocument demoWindow
          [Some heroTarget; Some cardTarget],
        getCombinedRect demoDocument demoWindow
          [Some cardTarget; Some heroTarget] with
  | Some a, Some b =>
      Region.viewportLeft a == Region.viewportLeft b
      /\ Region.width a == Region.width b
  | _, _ => False
  end.
Proof.
  pose proof (getCombinedRect_order_irrelevant demoDocument demoWindow
                [Some heroTarget; Some cardTarget]
                [Some cardTarget; Some heroTarget] (perm_swap _ _ _)) as H.
  vm_compute in H. vm_compute.
  destruct H as (L & _ & _ & _ & W & _). split; assumption.
Defined.

(** Growth of the region where lookups are total. *)
Lemma getCombinedRect_silenced_grows
  (doc : Document) (win : Window)
  (targets before after : list (option Target.t)) (region : Region.t) :
  getCombinedRect doc win targets = Some region ->
  exists larger,
    getCombinedRect doc win (before ++ targets ++ after) = Some larger
    /\ Region.viewportLeft larger <= Region.viewportLeft region
    /\ Region.viewportTop larger <= Region.viewportTop region
    /\ Region.viewportRight region <= Region.viewportRight larger
    /\ Region.viewportBottom region <= Region.viewportBottom larger
    /\ Region.width region <= Region.width larger
    /\ Region.height region <= Region.height larger
    /\ incl (Region.individualRects region) (Region.individualRects larger).
Proof.
  unfold getCombinedRect. rewrite !collectRects_app.
  destruct (collectRects doc targets) as [|r rs] eqn:E; [discriminate|].
  intros [= <-].
  destruct (collectRects doc before ++ (r :: rs) ++ collectRects doc after)%list
    as [|r' rs'] eqn:E'.
  { apply (f_equal (@List.length _)) in E'. rewrite !length_app in E'.
    simpl in E'. lia. }
  assert (I : incl (r :: rs) (r' :: rs')).
  { rewrite <- E'. intros x Hx. apply in_or_app. right.
    apply in_or_app. now left. }
  pose proof (Math_min_incl _ _ _ _ (incl_map_cons Rect.left _ _ _ _ I)) as L.
  pose proof (Math_min_incl _ _ _ _ (incl_map_cons Rect.top _ _ _ _ I)) as T.
  pose proof (Math_max_incl _ _ _ _ (incl_map_cons Rect.right _ _ _ _ I)) as R.
  pose proof (Math_max_incl _ _ _ _ (incl_map_cons Rect.bottom _ _ _ _ I))
    as B.
  eexists. split; [reflexivity|]. simpl.
  repeat split; try assumption; lra.
Qed.

(** X4. More descriptors never shrink the region, as long as no lookup
    throws: if a list resolves to a region and the lookups of the further
    descriptors put in front and behind return, the longer list resolves
    too, to a region whose edges are at or beyond those of the first and
    whose width and height are at least as large. *)
Theorem getCombinedRect_grows_with_targets
  (doc : Throwing.Document) (win : Window)
  (targets before after : list (option Target.t)) (region : Region.t) :
  Throwing.getCombinedRect doc win targets = Returns (Some region) ->
  Forall (fun t => Throwing.getTargetElement doc t <> Throws)
         (before ++ after) ->
  exists larger,
    Throwing.getCombinedRect doc win (before ++ targets ++ after)
    = Returns (Some larger)
    /\ Region.viewportLeft larger <= Region.viewportLeft region
    /\ Region.viewportTop larger <= Region.viewportTop region
    /\ Region.viewportRight region <= Region.viewportRight larger
    /\ Region.viewportBottom region <= Region.viewportBottom larger
    /\ Region.width region <= Region.width larger
    /\ Region.height region <= Region.height larger
    /\ incl (Region.individualRects region) (Region.individualRects larger).
Proof.
  intros R F.
  assert (T : Forall (fun t => Throwing.getTargetElement doc t <> Throws)
                targets).
  { apply Forall_forall. intros t Ht E.
    assert (X : Exists (fun t => Throwing.getTargetElement doc t = Throws)
                  targets) by (apply Exists_exists; eauto).
    apply (Throwing_collectRects_throws doc targets []) in X.
    unfold Throwing.getCombinedRect in R. now rewrite X in R. }
  apply Forall_app in F. destruct F as [Fb Fa].
  rewrite (Throwing_getCombinedRect_silenced doc win targets T) in R.
  injection R as R.
  destruct (getCombinedRect_silenced_grows (silenced doc) win targets before
              after region R) as (larger & E & Hl).
  exists larger. split; [|exact Hl].
  rewrite Throwing_getCombinedRect_silenced; [now rewrite E|].
  apply Forall_app. split; [exact Fb|]. apply Forall_app. now split.
Qed.

Lemma getCombinedRect_grows_with_targets_witness :
  exists larger,
    Throwing.getCombinedRect strictDocument demoWindow
      [Some cardTarget; Some heroTarget; Some ghostTarget]
    = Returns (Some larger)
    /\ Region.viewportLeft larger <= 100 /\ 100 <= Region.width larger.
Proof.
  destruct (getCombinedRect_grows_with_targets strictDocument demoWindow
              [Some heroTarget] [Some cardTarget] [Some ghostTarget]
              heroRegion) as (larger & E & L & _ & _ & _ & W & _).
  - vm_compute. reflexivity.
  - repeat constructor; discriminate.
  - exists larger. split; [exact E|]. split.
    + eapply Qle_trans; [exact L|]. vm_compute. discriminate.
    + eapply Qle_trans; [|exact W]. vm_compute. discriminate.
Defined.

(** ** Placement engine: what is returned when something fits *)

Lemma firstFit_none_inv (table : Positions) (order : list string) :
  firstFit order table = None ->
  forall q, In q order -> fitsIn table q = false.
Proof.
  unfold fitsIn. induction order as [|p ps IH]; simpl; [tauto|].
  destruct (lookup p table) as [d|] eqn:E.
  - destruct (Candidate.fits d) eqn:F; [discriminate|].
    intros H q [<-|Hq]; [now rewrite E | now apply IH].
  - intros H q [<-|Hq]; [now rewrite E | now apply IH].
Qed.

Lemma fitsIn_key (table : Positions) (key : string) :
  fitsIn table key = true -> In key (map fst table).
Proof.
  unfold fitsIn. destruct (lookup key table) as [d|] eqn:E; [|discriminate].
  intros _. apply lookup_In in E. now apply (in_map fst) in E.
Qed.

Lemma positions_key_named (win : Window) (region : Region.t) (key : string) :
  In key (map fst (positions win region)) -> In key priorityOrder.
Proof.
  rewrite positions_keys. unfold priorityOrder. simpl. tauto.
Qed.

Lemma determinePlacement_fits (table : Positions) (preferred key : string) :
  (forall k, In k (map fst table) -> In k priorityOrder) ->
  fitsIn table key = true ->
  fitsIn table (determinePlacement table preferred) = true.
Proof.
  intros Named Hkey.
  assert (B : fitsIn table (findBestPosition table) = true).
  { unfold findBestPosition.
    destruct (firstFit priorityOrder table) as [p|] eqn:E.
    - now apply firstFit_some in E.
    - rewrite (firstFit_none_inv table priorityOrder E key) in Hkey;
        [discriminate|]. now apply Named, fitsIn_key. }
  unfold determinePlacement. destruct (_ && _); [|exact B].
  destruct (lookup preferred table) as [d|] eqn:L; [|exact B].
  destruct (Candidate.fits d) eqn:F; [|exact B].
  unfold fitsIn. now rewrite L.
Qed.

(** Everything [calculatePosition] puts in its result. *)
Lemma calculatePosition_result (win : Window) (region : Region.t)
  (preferredPosition : option string) (res : Placement.t) :
  calculatePosition win (Some region) preferredPosition = Some res ->
  exists chosen,
    Placement.placement res
    = determinePlacement (positions win region)
        (preferredOrAuto preferredPosition)
    /\ lookup (Placement.placement res) (positions win region) = Some chosen
    /\ Placement.tooltipTop res
       = Qmax viewportPadding
           (Qmin (Candidate.top chosen)
                 (innerHeight win - tooltipHeight - viewportPadding))
    /\ Placement.tooltipLeft res
       = Qmax viewportPadding
           (Qmin (Candidate.left chosen)
                 (innerWidth win - tooltipWidth - viewportPadding))
    /\ Placement.arrowStyle res
       = calculateArrowPosition (Placement.placement res) region.
Proof.
  unfold calculatePosition.
  destruct (lookup _ (positions win region)) as [chosen|] eqn:L;
    [|discriminate].
  intros [= <-]. exists chosen. simpl. auto.
Qed.

(** X5. Whatever the preferred side -- a name of a placement, ['auto'],
    an unknown word or nothing -- the placement returned for a region is
    one of the eight names. *)
Theorem calculatePosition_placement_is_named
  (win : Window) (region : Region.t) (preferredPosition : option string) :
  exists res,
    calculatePosition win (Some region) preferredPosition = Some res
    /\ In (Placement.placement res) priorityOrder.
Proof.
  destruct (calculatePosition_returns win region preferredPosition)
    as (res & chosen & E & _ & L & _).
  exists res. split; [exact E|].
  apply (positions_key_named win region).
  apply lookup_In in L. now apply (in_map fst) in L.
Qed.

(** X6. If any of the eight candidates fits, the placement returned fits,
    whatever the preferred side. *)
Theorem calculatePosition_fits_when_some_candidate_fits
  (win : Window) (region : Region.t) (preferredPosition : option string)
  (key : string) :
  fitsIn (positions win region) key = true ->
  exists res,
    calculatePosition win (Some region) preferredPosition = Some res
    /\ fitsIn (positions win region) (Placement.placement res) = true.
Proof.
  intros Hkey.
  destruct (calculatePosition_returns win region preferredPosition)
    as (res & chosen & E & P & _).
  exists res. split; [exact E|]. rewrite P.
  apply (determinePlacement_fits _ _ key);
    [apply positions_key_named | exact Hkey].
Qed.

Lemma calculatePosition_fits_when_some_candidate_fits_witness :
  fitsIn (positions demoWindow heroRegion) "top" = false
  /\ exists res,
       calculatePosition demoWindow (Some heroRegion) (Some "top"%string)
       = Some res
       /\ fitsIn (positions demoWindow heroRegion) (Placement.placement res)
          = true.
Proof.
  split; [reflexivity|].
  apply (calculatePosition_fits_when_some_candidate_fits demoWindow
           heroRegion (Some "top"%string) "right").
  reflexivity.
Defined.

Lemma clamp_below (lo hi raw : Q) :
  lo <= raw -> Qmax lo (Qmin raw hi) <= raw.
Proof. intros H. apply Q.max_lub; [exact H | apply Q.le_min_l]. Qed.

Lemma clamp_above (lo hi raw : Q) :
  raw <= hi -> raw <= Qmax lo (Qmin raw hi).
Proof.
  intros H. eapply Qle_trans; [|apply Q.le_max_r].
  apply Q.min_glb; [apply Qle_refl | exact H].
Qed.

(** The candidate of each key, for the proofs by cases on the placement. *)
Lemma positions_In (win : Window) (region : Region.t) (p : string)
  (c : Candidate.t) :
  lookup p (positions win region) = Some c -> In (p, c) (positions win region).
Proof. apply lookup_In. Qed.

Ltac placementCases L :=
  apply positions_In in L; unfold positions in L; simpl in L;
  repeat (destruct L as [L|L]; [injection L as <- <-|]); [..|contradiction].

Ltac wrongFamily :=
  let H := fresh in
  solve [ intros H; simpl in H; exfalso;
          repeat (destruct H as [H|H]; [discriminate H|]);
          first [discriminate H | contradiction] ].

(** X8. When the placement returned fits, the arrow anchor lies in the
    gap between tooltip and target: below the tooltip and above the target
    for the top placements (rotation 180), below the target and above the
    tooltip for the bottom ones (rotation 0), and likewise between them
    horizontally for ['left'] (rotation -90) and ['right'] (rotation 90). *)
Theorem arrow_lies_between_tooltip_and_target
  (win : Window) (region : Region.t) (preferredPosition : option string)
  (res : Placement.t) :
  calculatePosition win (Some region) preferredPosition = Some res ->
  fitsIn (positions win region) (Placement.placement res) = true ->
  let p := Placement.placement res in
  let arrow := Placement.arrowStyle res in
  (In p ["top"; "top-left"; "top-right"]%string ->
   Placement.tooltipTop res + 250 < Arrow.y arrow
   /\ Arrow.y arrow < Region.viewportTop region
   /\ Arrow.rotation arrow == 180)
  /\ (In p ["bottom"; "bottom-left"; "bottom-right"]%string ->
      Region.viewportTop region + Region.height region < Arrow.y arrow
      /\ Arrow.y arrow < Placement.tooltipTop res
      /\ Arrow.rotation arrow == 0)
  /\ (p = "left"%string ->
      Placement.tooltipLeft res + 320 < Arrow.x arrow
      /\ Arrow.x arrow < Region.viewportLeft region
      /\ Arrow.rotation arrow == -90)
  /\ (p = "right"%string ->
      Region.viewportLeft region + Region.width region < Arrow.x arrow
      /\ Arrow.x arrow < Placement.tooltipLeft res
      /\ Arrow.rotation arrow == 90).
Proof.
  intros E F p arrow. unfold arrow, p.
  destruct (calculatePosition_result win region preferredPosition res E)
    as (chosen & _ & L & T & Lf & A).
  unfold fitsIn in F. rewrite L in F. rewrite T, Lf, A. clear T Lf E A.
  unfold viewportPadding, tooltipHeight, tooltipWidth.
  placementCases L; simpl in F; unfold Qge_bool in F;
    rewrite ?andb_true_iff, ?Qle_bool_iff in F;
    unfold tooltipHeight, tooltipWidth, tooltipMargin, viewportPadding,
      highlightPadding in F;
    cbn [Candidate.top Candidate.left];
    unfold calculateArrowPosition; cbn -[Qmax Qmin Qplus Qminus Qdiv Qlt Qle];
    unfold tooltipHeight, tooltipWidth, tooltipMargin, viewportPadding,
      highlightPadding;
    (split; [|split; [|split]]); try wrongFamily; intros _.
  - pose proof (clamp_below 20 (innerHeight win - 250 - 20)
                  (Region.viewportTop region - 10 - 20 - 250)).
    repeat split; try reflexivity; lra.
  - pose proof (clamp_above 20 (innerHeight win - 250 - 20)
                  (Region.viewportTop region + Region.height region + 10
                   + 20)).
    repeat split; try reflexivity; lra.
  - pose proof (clamp_below 20 (innerWidth win - 320 - 20)
                  (Region.viewportLeft region - 10 - 20 - 320)).
    repeat split; try reflexivity; lra.
  - pose proof (clamp_above 20 (innerWidth win - 320 - 20)
                  (Region.viewportLeft region + Region.width region + 10
                   + 20)).
    repeat split; try reflexivity; lra.
  - pose proof (clamp_below 20 (innerHeight win - 250 - 20)
                  (Region.viewportTop region - 10 - 20 - 250)).
    repeat split; try reflexivity; lra.
  - pose proof (clamp_below 20 (innerHeight win - 250 - 20)
                  (Region.viewportTop region - 10 - 20 - 250)).
    repeat split; try reflexivity; lra.
  - pose proof (clamp_above 20 (innerHeight win - 250 - 20)
                  (Region.viewportTop region + Region.height region + 10
                   + 20)).
    repeat split; try reflexivity; lra.
  - pose proof (clamp_above 20 (innerHeight win - 250 - 20)
                  (Region.viewportTop region + Region.height region + 10
                   + 20)).
    repeat split; try reflexivity; lra.
Qed.

Lemma arrow_lies_between_tooltip_and_target_witness :
  exists res,
    calculatePosition demoWindow (Some heroRegion) None = Some res
    /\ Placement.placement res = "bottom"%string
    /\ 100 + 40 < Arrow.y (Placement.arrowStyle res)
    /\ Arrow.y (Placement.arrowStyle res) < Placement.tooltipTop res.
Proof.
  eexists. split; [reflexivity|]. split; [reflexivity|].
  destruct (arrow_lies_between_tooltip_and_target demoWindow heroRegion
              None _ eq_refl eq_refl) as (_ & B & _).
  destruct B as (B1 & B2 & _); [simpl; tauto|]. split; assumption.
Defined.

(** ** Back, and Next on the last step *)

Lemma updateTargetPosition_found (props : Props) (k : nat) (s : Step.t)
  (env : Document * Window) (withRetry : bool) (st : State)
  (region : Region.t) :
  nth_error (sortedSteps props) k = Some s ->
  getCombinedRect (fst env) (snd env) (getStepTargets s) = Some region ->
  updateTargetPosition props (fst env) (snd env) k withRetry st
  = mkState (currentStepIndex st) (Some region) true 0 (timers st) (trace st).
Proof.
  intros Hs Hr. unfold updateTargetPosition. now rewrite Hs, Hr.
Qed.

(** X9. Back on the first step changes nothing.  On a later step it
    requires navigation when the previous step has a (non-empty) path
    different from the current step's; [nextPath] plays no part.  When
    navigation is required and the host supplied [onNavigate], it is called
    with the previous step's path, the index stays and a 50 ms callback is
    scheduled for the move; otherwise the index moves back and
    [onStepChange] is called at once.  Neither way is [onNext] called. *)
Theorem handleBack_navigation_then_delayed_return
  (props : Props) (st : State) (cur prev : Step.t) (j : nat) :
  currentStepIndex st = S j ->
  nth_error (sortedSteps props) (S j) = Some cur ->
  nth_error (sortedSteps props) j = Some prev ->
  let required :=
    truthy (Step.path prev) <> None /\ Step.path prev <> Step.path cur in
  let change :=
    if onStepChange props
    then [CallOnStepChange (Some (Step.step prev)) (Step.path prev)]
    else [] in
  let after := handleBack props st in
  (required -> onNavigate props = true ->
   exists target,
     truthy (Step.path prev) = Some target
     /\ currentStepIndex after = S j
     /\ trace after = (trace st ++ [CallOnNavigate target])%list
     /\ timers after
        = (timers st
           ++ [mkTimer 50 (AdvanceCallback j (Some (Step.step prev))
                             (Step.path prev))])%list)
  /\ (~ required \/ onNavigate props = false ->
      currentStepIndex after = j
      /\ trace after = (trace st ++ change)%list
      /\ timers after = timers st)
  /\ (forall first, currentStepIndex first = 0%nat ->
                    handleBack props first = first).
Proof.
  intros Hk Hc Hp required change after.
  split; [|split].
  3: { intros first H0. unfold handleBack. now rewrite H0. }
  all: unfold after, handleBack; rewrite Hk; cbn [Nat.eqb Nat.sub];
    rewrite Nat.sub_0_r, Hc, Hp; cbn [pathOf stepOf option_map].
  - intros [R1 R2] N. rewrite N, andb_true_r.
    destruct (truthy (Step.path prev)) as [target|] eqn:T; [|congruence].
    exists target. split; [reflexivity|].
    assert (D : option_string_eqb (Step.path prev) (Step.path cur) = false).
    { apply not_true_iff_false. now rewrite option_string_eqb_eq. }
    rewrite D. simpl. rewrite Hk. auto.
  - intros H.
    assert (G : negb (option_string_eqb (Step.path prev) (Step.path cur))
                && onNavigate props = true ->
                truthy (Step.path prev) = None).
    { rewrite andb_true_iff, negb_true_iff.
      rewrite <- not_true_iff_false, option_string_eqb_eq.
      intros [D N]. destruct H as [H|H]; [|congruence].
      destruct (truthy (Step.path prev)); [|reflexivity].
      exfalso. apply H. split; [discriminate | exact D]. }
    unfold change, emitIf, emit, setCurrentStepIndex.
    destruct (truthy (Step.path prev)) as [target|];
      [destruct (negb _ && onNavigate props);
         [now discriminate G|]|];
      destruct (onStepChange props); simpl; rewrite ?app_nil_r; auto.
Qed.

Lemma handleBack_navigation_then_delayed_return_witness :
  let atHero := mkState 1 None false 0 [] [] in
  currentStepIndex (handleBack tourProps atHero) = 0%nat
  /\ trace (handleBack tourProps atHero)
     = [CallOnStepChange (Some 1%Z) None]
  /\ handleBack tourProps initialState = initialState.
Proof.
  destruct (handleBack_navigation_then_delayed_return tourProps
              (mkState 1 None false 0 [] []) heroStep ghostStep 0
              eq_refl eq_refl eq_refl) as (_ & Now & First).
  cbv zeta. destruct Now as (I & T & _).
  - left. intros [H _]. now apply H.
  - split; [exact I|]. split; [exact T|]. now apply First.
Defined.

(** Next or Back, and then the timer it may have scheduled. *)
Lemma handleNext_settles (props : Props) (doc : Document) (win : Window)
  (st : State) (next : Step.t) :
  timers st = [] ->
  nth_error (sortedSteps props) (currentStepIndex st + 1) = Some next ->
  let settled := fireTimer props doc win (handleNext props st) in
  currentStepIndex settled = (currentStepIndex st + 1)%nat
  /\ timers settled = [] /\ retryCount settled = retryCount st
  /\ targetRect settled = targetRect st /\ isVisible settled = isVisible st.
Proof.
  intros Ht Hn. cbv zeta. unfold handleNext.
  rewrite (nth_error_not_last props _ next Hn).
  destruct (nth_error (sortedSteps props) (currentStepIndex st)) as [cur|];
    [destruct (Step.onNext cur)|];
    destruct (truthy _); try destruct (_ && onNavigate props);
    unfold fireTimer, runCallback, emitIf, emit, setTimeout,
      setCurrentStepIndex;
    destruct (onStepChange props); simpl; rewrite Ht; simpl; auto.
Qed.

Lemma handleBack_settles (props : Props) (doc : Document) (win : Window)
  (st : State) (j : nat) :
  timers st = [] -> currentStepIndex st = S j ->
  let settled := fireTimer props doc win (handleBack props st) in
  currentStepIndex settled = j
  /\ timers settled = [] /\ retryCount settled = retryCount st
  /\ targetRect settled = targetRect st /\ isVisible settled = isVisible st.
Proof.
  intros Ht Hk. cbv zeta. unfold handleBack. rewrite Hk.
  cbn [Nat.eqb Nat.sub]. rewrite Nat.sub_0_r.
  destruct (truthy _); try destruct (_ && onNavigate props);
    unfold fireTimer, runCallback, emitIf, emit, setTimeout,
      setCurrentStepIndex;
    destruct (onStepChange props); simpl; rewrite Ht; simpl; auto.
Qed.

(** X10. Next and then Back lead back to the same step and the same
    geometry.  On a page where the current step and the next one both
    resolve, and with no timer pending: Next -- with the 50 ms timer it may
    have scheduled and the entry of the new step -- shows the next step with
    its region; Back -- with its timer and the entry of the old step --
    returns to the index it started from, with the region and visibility
    the step had when it was entered first, the counter at 0 and no timer
    pending. *)
Theorem next_then_back_returns (props : Props) (env : Document * Window)
  (st : State) (cur next : Step.t) (curRegion nextRegion : Region.t) :
  timers st = [] ->
  nth_error (sortedSteps props) (currentStepIndex st) = Some cur ->
  nth_error (sortedSteps props) (currentStepIndex st + 1) = Some next ->
  getCombinedRect (fst env) (snd env) (getStepTargets cur) = Some curRegion ->
  getCombinedRect (fst env) (snd env) (getStepTargets next)
  = Some nextRegion ->
  let enter := enterStep props (fst env) (snd env) in
  let fire := fireTimer props (fst env) (snd env) in
  let shown := enter st in
  let forth := enter (fire (handleNext props shown)) in
  let back := enter (fire (handleBack props forth)) in
  currentStepIndex forth = (currentStepIndex st + 1)%nat
  /\ targetRect forth = Some nextRegion
  /\ currentStepIndex back = currentStepIndex st
  /\ targetRect back = targetRect shown
  /\ targetRect back = Some curRegion
  /\ isVisible back = true /\ isVisible shown = true
  /\ retryCount back = 0%nat /\ timers back = [].
Proof.
  intros Ht Hc Hn Rc Rn enter fire shown forth back.
  assert (S0 : shown = mkState (currentStepIndex st) (Some curRegion) true 0
                         [] (trace st)).
  { unfold shown, enter, enterStep.
    rewrite (updateTargetPosition_found props _ cur env true st curRegion
               Hc Rc). now rewrite Ht. }
  assert (I0 : currentStepIndex shown = currentStepIndex st)
    by now rewrite S0.
  assert (T0 : timers shown = []) by now rewrite S0.
  destruct (handleNext_settles props (fst env) (snd env) shown next T0)
    as (I1 & T1 & _); [now rewrite I0|].
  fold fire in I1, T1. rewrite I0 in I1.
  assert (S1 : forth = mkState (currentStepIndex st + 1) (Some nextRegion)
                         true 0 [] (trace (fire (handleNext props shown)))).
  { unfold forth, enter, enterStep. rewrite I1.
    rewrite (updateTargetPosition_found props _ next env true _ nextRegion
               Hn Rn). now rewrite I1, T1. }
  assert (I2 : currentStepIndex forth = S (currentStepIndex st))
    by (rewrite S1; simpl; lia).
  assert (T2 : timers forth = []) by now rewrite S1.
  destruct (handleBack_settles props (fst env) (snd env) forth _ T2 I2)
    as (I3 & T3 & _).
  fold fire in I3, T3.
  assert (S3 : back = mkState (currentStepIndex st) (Some curRegion) true 0
                        [] (trace (fire (handleBack props forth)))).
  { unfold back, enter, enterStep. rewrite I3.
    rewrite (updateTargetPosition_found props _ cur env true _ curRegion
               Hc Rc). now rewrite I3, T3. }
  rewrite S3, S1, S0. simpl. repeat split; reflexivity.
Qed.

Lemma next_then_back_returns_witness :
  let page := (demoDocument, demoWindow) in
  let steps2 :=
    mkProps [Step.mk 1 None (Some "card"%string) None None None false None;
             heroStep] true true true true in
  let enter := enterStep steps2 demoDocument demoWindow in
  let fire := fireTimer steps2 demoDocument demoWindow in
  let forth := enter (fire (handleNext steps2 (enter initialState))) in
  let back := enter (fire (handleBack steps2 forth)) in
  currentStepIndex forth = 1%nat /\ currentStepIndex back = 0%nat
  /\ targetRect back = targetRect (enter initialState).
Proof.
  cbv zeta.
  destruct (next_then_back_returns
              (mkProps
                 [Step.mk 1 None (Some "card"%string) None None None false
                    None; heroStep] true true true true)
              (demoDocument, demoWindow) initialState
              (Step.mk 1 None (Some "card"%string) None None None false None)
              heroStep
              (Region.mk (300 + 250) (50 + 0) (450 - 50) (500 - 300)
                 300 50 450 500 [cardRect])
              heroRegion eq_refl eq_refl eq_refl)
    as (F & _ & B & G & _).
  - reflexivity.
  - vm_compute. reflexivity.
  - split; [exact F|]. split; [exact B | exact G].
Defined.

(** X11. Next on the last step calls [onNext] if the step has one, then
    [onComplete] if supplied, and nothing else: the index stays, no timer
    is scheduled, no step change and no navigation is signalled. *)
Theorem handleNext_on_last_step_completes
  (props : Props) (st : State) (s : Step.t) :
  nth_error (sortedSteps props) (currentStepIndex st) = Some s ->
  isLastStep props (currentStepIndex st) = true ->
  let after := handleNext props st in
  currentStepIndex after = currentStepIndex st
  /\ timers after = timers st
  /\ trace after
     = (trace st ++ onNextEffects s
        ++ (if onComplete props then [CallOnComplete] else []))%list
  /\ retryCount after = retryCount st /\ targetRect after = targetRect st.
Proof.
  intros Hs Hl after. unfold after.
  destruct (handleNext_at_once props st s Hs) as [Last _].
  rewrite (Last Hl). unfold emitIf, emit.
  destruct (onComplete props); simpl; rewrite ?app_nil_r, <- ?app_assoc;
    auto.
Qed.

Lemma handleNext_on_last_step_completes_witness :
  let atHero := mkState 1 None false 0 [] [] in
  trace (handleNext tourProps atHero) = [CallOnComplete]
  /\ currentStepIndex (handleNext tourProps atHero) = 1%nat.
Proof.
  destruct (handleNext_on_last_step_completes tourProps
              (mkState 1 None false 0 [] []) heroStep eq_refl eq_refl)
    as (I & _ & T & _).
  cbv zeta. split; [exact T | exact I].
Defined.

(** ** An invariant of every run *)

Lemma Forall_without {A : Type} (P : A -> Prop) (l : list A) (n : nat) :
  Forall P l -> Forall P (firstn n l ++ skipn (S n) l).
Proof.
  intros H. revert n. induction H as [|a l Ha Hl IH]; intros [|n]; simpl;
    try constructor; auto.
Qed.

Section InRange.
Variable props : Props.

Lemma inRange_emit (e : Effect) (st : State) :
  inRange props st -> inRange props (emit e st).
Proof. exact (fun H => H). Qed.

Lemma inRange_emitIf (b : bool) (e : Effect) (st : State) :
  inRange props st -> inRange props (emitIf b e st).
Proof. destruct b; [apply inRange_emit | exact (fun H => H)]. Qed.

Lemma inRange_setCurrentStepIndex (i : nat) (st : State) :
  (i < List.length (sortedSteps props))%nat ->
  inRange props st -> inRange props (setCurrentStepIndex i st).
Proof. intros Hi (_ & R & T). now split. Qed.

Lemma inRange_setTimeout (cb : Callback) (ms : Z) (st : State) :
  callbackInRange props (mkTimer ms cb) ->
  inRange props st -> inRange props (setTimeout cb ms st).
Proof.
  intros Hc (I & R & T). repeat split; auto. simpl.
  apply Forall_app. split; [exact T | now constructor].
Qed.

Lemma next_index_in_range (k : nat) :
  (k < List.length (sortedSteps props))%nat -> isLastStep props k = false ->
  (k + 1 < List.length (sortedSteps props))%nat.
Proof.
  unfold isLastStep. intros H L. apply Nat.eqb_neq in L. lia.
Qed.

Lemma inRange_skipToNextValidStep (k : nat) (st : State) :
  (k < List.length (sortedSteps props))%nat ->
  inRange props st -> inRange props (skipToNextValidStep props k st).
Proof.
  intros Hk H. unfold skipToNextValidStep.
  destruct (isLastStep props k) eqn:L; [now apply inRange_emitIf|].
  assert (G : inRange props
                (emitIf (onStepChange props)
                   (CallOnStepChange
                      (stepOf (nth_error (sortedSteps props) (k + 1)))
                      (pathOf (nth_error (sortedSteps props) (k + 1))))
                   (setCurrentStepIndex (k + 1) st))).
  { apply inRange_emitIf, inRange_setCurrentStepIndex; auto.
    now apply next_index_in_range. }
  destruct (truthy _); [destruct (onNavigate props)|]; auto.
Qed.

Lemma inRange_updateTargetPosition (doc : Document) (win : Window)
  (k : nat) (withRetry : bool) (st : State) :
  (k < List.length (sortedSteps props))%nat ->
  inRange props st ->
  inRange props (updateTargetPosition props doc win k withRetry st).
Proof.
  intros Hk H. unfold updateTargetPosition.
  destruct (nth_error (sortedSteps props) k) as [s|]; [|exact H].
  destruct (getCombinedRect doc win (getStepTargets s)).
  - destruct H as (I & R & T). repeat split; auto. simpl. lia.
  - destruct (withRetry && (retryCount st <? maxRetries)%nat) eqn:W.
    + apply andb_true_iff in W. destruct W as [_ W].
      apply Nat.ltb_lt in W.
      apply inRange_setTimeout; [exact Hk|].
      destruct H as (I & R & T). repeat split; auto. simpl. lia.
    + destruct (maxRetries <=? retryCount st)%nat; [|exact H].
      apply inRange_skipToNextValidStep; [exact Hk|].
      destruct H as (I & R & T). repeat split; auto. simpl. lia.
Qed.

Lemma inRange_handleNext (st : State) :
  inRange props st -> inRange props (handleNext props st).
Proof.
  intros H. unfold handleNext.
  set (st0 := match nth_error (sortedSteps props) (currentStepIndex st) with
              | Some s => if Step.onNext s
                          then emit (CallOnNext (Step.step s)) st else st
              | None => st
              end).
  assert (H0 : inRange props st0).
  { unfold st0. destruct (nth_error _ _) as [s|]; [|exact H].
    destruct (Step.onNext s); [now apply inRange_emit | exact H]. }
  destruct (isLastStep props (currentStepIndex st)) eqn:L;
    [now apply inRange_emitIf|].
  assert (N : (currentStepIndex st + 1 < List.length (sortedSteps props))%nat)
    by (apply next_index_in_range; [apply H | exact L]).
  assert (G : forall e, inRange props
                (emitIf (onStepChange props) e
                   (setCurrentStepIndex (currentStepIndex st + 1) st0)))
    by (intros e; now apply inRange_emitIf, inRange_setCurrentStepIndex).
  destruct (truthy _); [|apply G].
  destruct (_ && onNavigate props); [|apply G].
  apply inRange_setTimeout; [exact N | now apply inRange_emit].
Qed.

Lemma inRange_handleBack (st : State) :
  inRange props st -> inRange props (handleBack props st).
Proof.
  intros H. unfold handleBack.
  destruct (Nat.eqb_spec (currentStepIndex st) 0) as [|Z]; [exact H|].
  assert (N : (currentStepIndex st - 1 < List.length (sortedSteps props))%nat)
    by (destruct H as (I & _); lia).
  assert (G : forall e, inRange props
                (emitIf (onStepChange props) e
                   (setCurrentStepIndex (currentStepIndex st - 1) st)))
    by (intros e; now apply inRange_emitIf, inRange_setCurrentStepIndex).
  destruct (truthy _); [|apply G].
  destruct (_ && onNavigate props); [|apply G].
  apply inRange_setTimeout; [exact N | now apply inRange_emit].
Qed.

Lemma inRange_fireTimer (doc : Document) (win : Window) (st : State) :
  inRange props st -> inRange props (fireTimer props doc win st).
Proof.
  intros H. unfold fireTimer.
  destruct (timers st) as [|t rest] eqn:E; [exact H|].
  destruct H as (I & R & T). rewrite E in T.
  inversion T as [|? ? Ht Hrest]; subst.
  assert (H' : inRange props
                 (mkState (currentStepIndex st) (targetRect st)
                    (isVisible st) (retryCount st) rest (trace st)))
    by (repeat split; auto).
  unfold runCallback, callbackInRange in *.
  destruct (callback t) as [k | index step path].
  - now apply inRange_updateTargetPosition.
  - now apply inRange_emitIf, inRange_setCurrentStepIndex.
Qed.

Lemma inRange_fireTimerAt (doc : Document) (win : Window) (which : nat)
  (st : State) :
  inRange props st -> inRange props (fireTimerAt props doc win which st).
Proof.
  intros H. unfold fireTimerAt.
  destruct (nth_error (timers st) which) as [t|] eqn:E; [|exact H].
  destruct H as (I & R & T).
  assert (Ht : callbackInRange props t)
    by (rewrite Forall_forall in T; eapply T, nth_error_In; eauto).
  assert (H' : inRange props
                 (mkState (currentStepIndex st) (targetRect st)
                    (isVisible st) (retryCount st)
                    (firstn which (timers st) ++ skipn (S which) (timers st))
                    (trace st))).
  { repeat split; auto. simpl. now apply Forall_without. }
  unfold runCallback, callbackInRange in *.
  destruct (callback t) as [k | index step path].
  - now apply inRange_updateTargetPosition.
  - now apply inRange_emitIf, inRange_setCurrentStepIndex.
Qed.

Lemma inRange_handleEvent (env : Document * Window) (ev : Event)
  (st : State) :
  inRange props st -> inRange props (handleEvent props env ev st).
Proof.
  intros H. destruct ev; simpl.
  - now apply inRange_handleNext.
  - now apply inRange_handleBack.
  - now apply inRange_emitIf.
  - apply inRange_updateTargetPosition; [apply H | exact H].
  - apply inRange_updateTargetPosition; [apply H | exact H].
  - now apply inRange_fireTimerAt.
  - destruct H as (I & R & T). repeat split; auto. simpl. lia.
  - unfold openTour. destruct (nth_error _ _); [|exact H].
    destruct (Nat.eqb _ 0); [|exact H].
    destruct (truthy _); [|exact H].
    destruct (onNavigate props); [now apply inRange_emit | exact H].
Qed.
End InRange.

Lemma insertStep_length (s : Step.t) (l : list Step.t) :
  List.length (insertStep s l) = S (List.length l).
Proof.
  induction l as [|x l IH]; simpl; [reflexivity|].
  destruct (Step.step s <=? Step.step x)%Z; simpl; [reflexivity|].
  now rewrite IH.
Qed.

Lemma sortedSteps_length (props : Props) :
  List.length (sortedSteps props) = List.length (steps props).
Proof.
  unfold sortedSteps. induction (steps props) as [|s l IH]; simpl;
    [reflexivity|]. now rewrite insertStep_length, IH.
Qed.

(** X12. Whatever is done to a tour with at least one step -- any sequence
    of Next, Back and Skip clicks, scrolls and resizes, step entries,
    firings of any of the pending timers in any order, closings and
    openings, on pages of any content -- the step index stays an index of a
    step, the retry counter stays at most 15, and every pending timer refers
    to a step of the tour. *)
Theorem handleEvents_stay_in_range
  (props : Props) (evs : list (Event * (Document * Window))) :
  steps props <> [] ->
  inRange props (handleEvents props evs initialState).
Proof.
  intros Hne.
  assert (H0 : inRange props initialState).
  { repeat split; simpl; [|unfold maxRetries; lia | constructor].
    rewrite sortedSteps_length. destruct (steps props); [congruence|].
    simpl. lia. }
  unfold handleEvents. revert H0. generalize initialState.
  induction evs as [|[ev env] evs IH]; intros st H; simpl; [exact H|].
  apply IH. now apply inRange_handleEvent.
Qed.

Lemma handleEvents_stay_in_range_witness :
  inRange tourProps
    (handleEvents tourProps
       [(StepEntered, emptyPage); (TimerFired 0, emptyPage);
        (ScrollOrResize, emptyPage); (ClickNext, emptyPage);
        (TimerFired 1, (demoDocument, demoWindow));
        (TimerFired 0, emptyPage);
        (ClickBack, emptyPage); (TourClosed, emptyPage)]
       initialState)
  /\ inRange staleProps staleEntry.
Proof.
  split.
  - apply handleEvents_stay_in_range. discriminate.
  - apply (handleEvents_stay_in_range staleProps). discriminate.
Defined.

(** ** Retry controller: a late target, and a tour without targets *)

(** X13. A target that shows up in time is not skipped.  A step is
    entered with the counter at 0 and no timer pending.  If its targets are
    found at the entry, or are missing at the entry and at the first [n]
    retries, [n < 15], and found at the next one, the controller ends with
    the region cached, the step visible, the counter at 0 and no timer
    pending; the index is the same and nothing was signalled to the host. *)
Theorem target_found_within_budget
  (props : Props) (s : Step.t) (env : Document * Window)
  (region : Region.t) (st : State) :
  nth_error (sortedSteps props) (currentStepIndex st) = Some s ->
  retryCount st = 0%nat -> timers st = [] ->
  getCombinedRect (fst env) (snd env) (getStepTargets s) = Some region ->
  let found :=
    mkState (currentStepIndex st) (Some region) true 0 [] (trace st) in
  enterStep props (fst env) (snd env) st = found
  /\ forall env0 envs,
       Forall (unresolved s) (env0 :: envs) ->
       (List.length envs < 15)%nat ->
       fireTimers props (envs ++ [env])
         (enterStep props (fst env0) (snd env0) st) = found.
Proof.
  intros Hs Hc Ht Hr found. split.
  - unfold enterStep.
    rewrite (updateTargetPosition_found props _ s env true st region Hs Hr).
    unfold found. now rewrite Ht.
  - intros env0 envs Hall Hlen.
    pose proof (retryRun_retrying props s env0 envs st Hs Hc Ht Hall
                  (List.length envs) (le_n _) Hlen) as R.
    unfold retryRun in R. rewrite firstn_all in R.
    unfold fireTimers in *. rewrite fold_left_app. simpl. rewrite R.
    unfold fireTimer. simpl.
    now rewrite (updateTargetPosition_found props _ s env true _ region Hs Hr).
Qed.

Lemma target_found_within_budget_witness :
  fireTimers tourProps
    [emptyPage; emptyPage; emptyPage; (demoDocument, demoWindow)]
    (enterStep tourProps emptyDocument demoWindow
       (mkState 1 None false 0 [] []))
  = mkState 1 (Some heroRegion) true 0 [] [].
Proof.
  destruct (target_found_within_budget tourProps heroStep
              (demoDocument, demoWindow) heroRegion
              (mkState 1 None false 0 [] []) eq_refl eq_refl eq_refl)
    as [_ Late].
  - vm_compute. reflexivity.
  - apply (Late emptyPage [emptyPage; emptyPage; emptyPage]).
    + repeat constructor.
    + simpl. lia.
Defined.

Lemma exhaustStep_skips (props : Props) (s : Step.t)
  (env : Document * Window) (st : State) :
  nth_error (sortedSteps props) (currentStepIndex st) = Some s ->
  retryCount st = 0%nat -> timers st = [] -> unresolved s env ->
  exhaustStep props env st
  = skipToNextValidStep props (currentStepIndex st)
      (mkState (currentStepIndex st) (targetRect st) (isVisible st) 0 []
         (trace st ++ [ConsoleWarn (Step.step s)])).
Proof.
  intros Hs Hc Ht U.
  assert (Hall : Forall (unresolved s) (env :: repeat env 15))
    by (constructor; [exact U | apply Forall_forall; intros x Hx;
                                apply repeat_spec in Hx; now subst]).
  pose proof (retryRun_retrying props s env (repeat env 15) st Hs Hc Ht Hall
                14%nat) as R.
  assert (Split : retryRun props env (repeat env 15) st 15
                  = fireTimer props (fst env) (snd env)
                      (retryRun props env (repeat env 15) st 14)).
  { unfold retryRun, fireTimers.
    change (firstn 15 (repeat env 15))
      with (firstn 14 (repeat env 15) ++ [env])%list.
    rewrite fold_left_app. cbn [fold_left]. reflexivity. }
  unfold exhaustStep. rewrite Split.
  apply (fireTimer_exhausted props _ s Hs env st); [exact U|].
  apply R; [rewrite repeat_length; lia | unfold maxRetries; lia].
Qed.

Lemma warnings_app (a b : list Effect) :
  warnings (a ++ b) = (warnings a ++ warnings b)%list.
Proof.
  induction a as [|e a IH]; simpl; [reflexivity|].
  destruct e; simpl; now rewrite IH.
Qed.

Lemma warnings_navigation (l : list Effect) :
  Forall isCallOnNavigate l -> warnings l = [].
Proof.
  induction 1 as [|e l [p ->] _ IH]; simpl; auto.
Qed.

Lemma skipn_nth_error {A : Type} (l : list A) (k : nat) (x : A) :
  nth_error l k = Some x -> skipn k l = x :: skipn (S k) l.
Proof.
  revert k. induction l as [|a l IH]; intros [|k]; simpl; try discriminate.
  - now intros [= ->].
  - intros H. now rewrite (IH k H).
Qed.

Lemma exhaustSteps_S (props : Props) (env : Document * Window) (n : nat)
  (st : State) :
  exhaustSteps props env (S n) st
  = exhaustSteps props env n (exhaustStep props env st).
Proof. unfold exhaustSteps. apply Nat.iter_succ_r. Qed.

Lemma exhaustSteps_1 (props : Props) (env : Document * Window)
  (st : State) :
  exhaustSteps props env 1 st = exhaustStep props env st.
Proof.
  unfold exhaustSteps. generalize (exhaustStep props env). reflexivity.
Qed.

Lemma exhaustSteps_completes (props : Props) (env : Document * Window)
  (d : nat) :
  Forall (fun s => unresolved s env) (sortedSteps props) ->
  forall st,
    (currentStepIndex st + S d = List.length (sortedSteps props))%nat ->
    retryCount st = 0%nat -> timers st = [] ->
    let final := exhaustSteps props env (S d) st in
    currentStepIndex final = (List.length (sortedSteps props) - 1)%nat
    /\ retryCount final = 0%nat /\ timers final = []
    /\ warnings (trace final)
       = (warnings (trace st)
          ++ map Step.step
               (skipn (currentStepIndex st) (sortedSteps props)))%list
    /\ (onComplete props = true ->
        exists before, trace final = (before ++ [CallOnComplete])%list).
Proof.
  intros Hall. induction d as [|d IH]; intros st Hk Hc Ht final.
  all: destruct (nth_error (sortedSteps props) (currentStepIndex st))
         as [s|] eqn:Hs;
    [|apply nth_error_None in Hs; lia].
  all: assert (U : unresolved s env)
    by (rewrite Forall_forall in Hall; eapply Hall, nth_error_In; eauto).
  all: pose proof (exhaustStep_skips props s env st Hs Hc Ht U) as E.
  all: destruct (skipToNextValidStep_effects props (currentStepIndex st)
                   (mkState (currentStepIndex st) (targetRect st)
                      (isVisible st) 0 []
                      (trace st ++ [ConsoleWarn (Step.step s)])))
         as (Rc & Tm & _ & _ & Last & NotLast).
  1: assert (F : final = exhaustStep props env st)
    by (unfold final; apply exhaustSteps_1).
  2: assert (F : final
                 = exhaustSteps props env (S d) (exhaustStep props env st))
    by (unfold final; now rewrite exhaustSteps_S).
  all: rewrite F; clear F final; revert Rc Tm Last NotLast; rewrite <- E;
    generalize (exhaustStep props env st);
    intros st1 Rc Tm Last NotLast;
    cbn [retryCount timers trace currentStepIndex] in Rc, Tm, Last, NotLast.
  - assert (L : isLastStep props (currentStepIndex st) = true)
      by (unfold isLastStep; apply Nat.eqb_eq; lia).
    destruct (Last L) as [I T].
    repeat split; auto.
    + rewrite I. lia.
    + rewrite T, !warnings_app, (skipn_nth_error _ _ _ Hs).
      rewrite skipn_all2 by lia.
      destruct (onComplete props); simpl; now rewrite app_nil_r.
    + intros C. rewrite T, C. eexists. reflexivity.
  - assert (L : isLastStep props (currentStepIndex st) = false)
      by (unfold isLastStep; apply Nat.eqb_neq; lia).
    destruct (NotLast L) as (I & nav & T & F & _).
    destruct (IH st1) as (I' & R' & T' & W' & C');
      [rewrite I; lia | exact Rc | exact Tm |].
    repeat split; auto.
    rewrite W', T, I, !warnings_app, (warnings_navigation nav F).
    rewrite (skipn_nth_error _ _ _ Hs), Nat.add_1_r.
    destruct (onStepChange props); cbn [warnings app];
      rewrite ?app_nil_r, <- ?app_assoc; reflexivity.
Qed.

(** X14. A tour none of whose steps ever resolves does not hang.  In a
    page where no step of the tour resolves, let each step from the current
    one on be entered and its 15 retries fire: the tour ends on the last
    step with the counter at 0 and no timer pending, it has warned once for
    each of those steps, in order, and -- when the host supplied
    [onComplete] -- its last signal is the completion. *)
Theorem tour_without_targets_completes
  (props : Props) (env : Document * Window) (st : State) :
  Forall (fun s => unresolved s env) (sortedSteps props) ->
  (currentStepIndex st < List.length (sortedSteps props))%nat ->
  retryCount st = 0%nat -> timers st = [] ->
  let remaining :=
    (List.length (sortedSteps props) - currentStepIndex st)%nat in
  let final := exhaustSteps props env remaining st in
  currentStepIndex final = (List.length (sortedSteps props) - 1)%nat
  /\ retryCount final = 0%nat /\ timers final = []
  /\ warnings (trace final)
     = (warnings (trace st)
        ++ map Step.step (skipn (currentStepIndex st) (sortedSteps props)))%list
  /\ (onComplete props = true ->
      exists before, trace final = (before ++ [CallOnComplete])%list).
Proof.
  intros Hall Hk Hc Ht remaining final. unfold final, remaining.
  destruct (List.length (sortedSteps props) - currentStepIndex st)%nat
    as [|d] eqn:D; [lia|].
  apply exhaustSteps_completes; auto. lia.
Qed.

Lemma tour_without_targets_completes_witness :
  let final := exhaustSteps tourProps emptyPage 2 initialState in
  currentStepIndex final = 1%nat
  /\ warnings (trace final) = [1%Z; 2%Z]
  /\ exists before, trace final = (before ++ [CallOnComplete])%list.
Proof.
  destruct (tour_without_targets_completes tourProps emptyPage initialState)
    as (I & _ & _ & W & C).
  - repeat constructor.
  - simpl. lia.
  - reflexivity.
  - reflexivity.
  - cbv zeta. split; [exact I|]. split; [exact W|]. now apply C.
Defined.

(** ** The order of the steps *)

Lemma insertStep_Permutation (s : Step.t) (l : list Step.t) :
  Permutation (s :: l) (insertStep s l).
Proof.
  induction l as [|x l IH]; simpl; [apply Permutation_refl|].
  destruct (Step.step s <=? Step.step x)%Z; [apply Permutation_refl|].
  eapply Permutation_trans; [apply perm_swap|]. now constructor.
Qed.

Lemma insertStep_sorted (s : Step.t) (l : list Step.t) :
  StronglySorted stepLe l -> StronglySorted stepLe (insertStep s l).
Proof.
  induction 1 as [|x l Hl IH Hx]; simpl.
  - repeat constructor.
  - destruct (Step.step s <=? Step.step x)%Z eqn:C.
    + apply Z.leb_le in C. constructor; [now constructor|].
      constructor; [exact C|].
      eapply Forall_impl; [|exact Hx]. unfold stepLe. intros; lia.
    + apply Z.leb_gt in C. constructor; [exact IH|].
      eapply Permutation_Forall; [apply insertStep_Permutation|].
      constructor; [unfold stepLe; lia | exact Hx].
Qed.

Lemma insertStep_numbered (z : Z) (s : Step.t) (l : list Step.t) :
  stepsNumbered z (insertStep s l) = stepsNumbered z (s :: l).
Proof.
  unfold stepsNumbered. induction l as [|x l IH]; simpl; [reflexivity|].
  destruct (Step.step s <=? Step.step x)%Z eqn:C; [reflexivity|].
  apply Z.leb_gt in C. simpl. rewrite IH. simpl.
  destruct (Z.eqb_spec (Step.step s) z) as [Es|_]; [|reflexivity].
  destruct (Z.eqb_spec (Step.step x) z) as [Ex|_]; [lia | reflexivity].
Qed.

(** X15. The tour walks the steps of the [steps] property in ascending
    order of their [step] number: [sortedSteps] holds the same steps, each
    number at most the numbers after it, and steps with the same number
    keep the order they had in [steps]. *)
Theorem sortedSteps_sorted_and_stable (props : Props) :
  Permutation (steps props) (sortedSteps props)
  /\ StronglySorted stepLe (sortedSteps props)
  /\ forall z, stepsNumbered z (sortedSteps props)
               = stepsNumbered z (steps props).
Proof.
  unfold sortedSteps. induction (steps props) as [|s l (P & S & N)]; simpl.
  - repeat split; constructor.
  - split; [|split].
    + eapply Permutation_trans; [|apply insertStep_Permutation].
      now constructor.
    + now apply insertStep_sorted.
    + intros z. rewrite insertStep_numbered. unfold stepsNumbered in *.
      simpl. now rewrite N.
Qed.

(** ** Overlay and tooltip *)

(** X16. The spotlight covers every target it was resolved for.  For a
    region returned by [getCombinedRect] whose rectangles have their right
    and bottom edges at left + width and top + height (up to a pixel), every
    rectangle lies strictly inside one of the overlay's cutouts; there is
    one cutout per rectangle; and without a region there is no cutout. *)
Theorem overlay_cutouts_cover_targets
  (doc : Document) (win : Window) (targets : list (option Target.t))
  (region : Region.t) :
  getCombinedRect doc win targets = Some region ->
  Forall wellFormed (Region.individualRects region) ->
  let boxes := Overlay.cutouts (Some region) in
  Forall (fun r => exists b, In b boxes /\ covers b r)
         (Region.individualRects region)
  /\ List.length boxes = List.length (Region.individualRects region)
  /\ Overlay.cutouts None = [].
Proof.
  unfold getCombinedRect.
  destruct (collectRects doc targets) as [|r rs]; [discriminate|].
  intros H. injection H as <-. intros W. cbv zeta.
  unfold Overlay.cutouts,
    Overlay.hasMultipleTargets. cbn [Region.individualRects Region.width
    Region.height Region.viewportLeft Region.viewportTop] in *.
  split; [|split; [|reflexivity]].
  - destruct rs as [|r2 rs].
    + cbn. constructor; [|constructor]. eexists. split; [now left|].
      unfold covers, Overlay.padding. cbn. repeat split; lra.
    + cbn [List.length Nat.ltb Nat.leb].
      rewrite Forall_forall in *. intros x Hx.
      eexists. split; [apply (in_map _ _ x Hx)|].
      destruct (W x Hx) as [Wr Wb].
      unfold covers, Overlay.padding. cbn. repeat split; lra.
  - destruct rs as [|r2 rs]; cbn; [reflexivity|].
    now rewrite length_map.
Qed.

Lemma overlay_cutouts_cover_targets_witness :
  exists region,
    getCombinedRect demoDocument demoWindow [Some heroTarget; Some cardTarget]
    = Some region
    /\ List.length (Overlay.cutouts (Some region)) = 2%nat
    /\ Forall (fun r => exists b,
                   In b (Overlay.cutouts (Some region)) /\ covers b r)
              [heroRect; cardRect].
Proof.
  eexists. split; [reflexivity|]. split; [reflexivity|].
  apply (overlay_cutouts_cover_targets demoDocument demoWindow
           [Some heroTarget; Some cardTarget] _ eq_refl).
  repeat constructor; vm_compute; discriminate.
Defined.

(** X17. The progress bar of the tooltip is never empty and never
    overfull: while the index is an index of a step its width is above 0
    and at most 100 percent, and it is 100 exactly on the last step. *)
Theorem tooltip_progress_full_on_last_step
  (currentStepIndex totalSteps : nat) :
  (currentStepIndex < totalSteps)%nat ->
  0 < Tooltip.progress currentStepIndex totalSteps
  /\ Tooltip.progress currentStepIndex totalSteps <= 100
  /\ (Tooltip.progress currentStepIndex totalSteps == 100
      <-> S currentStepIndex = totalSteps).
Proof.
  intros H. unfold Tooltip.progress.
  remember (inject_Z (Z.of_nat currentStepIndex) + 1) as a eqn:Ea.
  remember (inject_Z (Z.of_nat totalSteps)) as b eqn:Eb.
  assert (Ha : a == inject_Z (Z.of_nat (S currentStepIndex))).
  { subst a. rewrite Nat2Z.inj_succ, <- Z.add_1_r, inject_Z_plus.
    reflexivity. }
  assert (A : 0 < a).
  { rewrite Ha. change 0 with (inject_Z 0). rewrite <- Zlt_Qlt. lia. }
  assert (AB : a <= b).
  { rewrite Ha. subst b. rewrite <- Zle_Qle. lia. }
  assert (B : 0 < b) by (eapply Qlt_le_trans; eauto).
  assert (Bne : ~ b == 0)
    by (intros E; rewrite E in B; now apply Qlt_irrefl in B).
  assert (Q1 : 0 < a / b)
    by (apply Qlt_shift_div_l; [exact B | now rewrite Qmult_0_l]).
  assert (Q2 : a / b <= 1)
    by (apply Qle_shift_div_r; [exact B | now rewrite Qmult_1_l]).
  assert (Eq1 : a / b == 1 <-> a == b).
  { split; intros E.
    - rewrite <- (Qmult_div_r a b Bne), E. ring.
    - rewrite E. field. exact Bne. }
  assert (Eq2 : a == b <-> S currentStepIndex = totalSteps).
  { rewrite Ha. subst b. split.
    - intros E. unfold Qeq in E. simpl in E. lia.
    - intros <-. reflexivity. }
  rewrite <- Eq2, <- Eq1. clear Eq1 Eq2.
  generalize dependent (a / b). intros q Q1 Q2.
  split; [lra|]. split; [lra|]. split; intros E.
  - apply Qle_antisym; [exact Q2|].
    assert (100 <= q * 100) by (rewrite E; apply Qle_refl). lra.
  - rewrite E. reflexivity.
Qed.

Lemma tooltip_progress_full_on_last_step_witness :
  Tooltip.progress 1 4 == 50 /\ Tooltip.progress 3 4 == 100
  /\ 0 < Tooltip.progress 0 4.
Proof.
  split; [reflexivity|].
  destruct (tooltip_progress_full_on_last_step 3 4) as (_ & _ & Full);
    [lia|].
  destruct (tooltip_progress_full_on_last_step 0 4) as (Pos & _); [lia|].
  split; [now apply Full | exact Pos].
Defined.
